(** * The URL registry of the URL shortener ([src/services/urlService.js])

    A shallow embedding of the [URLService] class: its two validators, the
    shortcode generator, record creation, lookup with click recording, the
    periodic cleanup and the local-storage persistence.

    Conventions of the embedding.
    - A JavaScript string is a [string]: a sequence of code units, here
      restricted to U+0000..U+00FF.
    - A JavaScript number that the code only uses as an integer is a [Z].
    - [this.urls] and [this.clickData] ([Map]) are [gmap string _],
      [this.usedShortcodes] ([Set]) is a [gset string].
    - Everything a method reads from the browser (the clock, [Math.random],
      [window.location.origin], [document.referrer], the [URL] constructor,
      whether [localStorage.setItem] succeeds) is an explicit argument.
    - The logger only appends to its own array and is left out. *)

From Stdlib Require Import ZArith Lia Ascii String List Bool.
From stdpp Require Import base option list strings gmap sets pretty.

Local Open Scope string_scope.
Local Open Scope list_scope.
Local Open Scope Z_scope.

(** ** Regular expressions

    The two validators are regular-expression tests.  The patterns are kept
    as syntax trees and run by a derivative matcher; [matches] is the
    reference semantics the matcher is proved against. *)
Module Regex.

Inductive regex : Type :=
  | Void : regex
  | Eps : regex
  | Class : (ascii → bool) → regex
  | Seq : regex → regex → regex
  | Alt : regex → regex → regex
  | Star : regex → regex.

(** [x?], [x+], [x{n}] and [x{lo,hi}] as the usual abbreviations. *)
Definition Opt (r : regex) : regex := Alt r Eps.
Definition Plus (r : regex) : regex := Seq r (Star r).

Fixpoint Repeat (n : nat) (r : regex) : regex :=
  match n with
  | O => Eps
  | S n' => Seq r (Repeat n' r)
  end.

Definition RepeatRange (lo hi : nat) (r : regex) : regex :=
  Seq (Repeat lo r) (Repeat (hi - lo) (Opt r)).

(** A literal character and a literal string. *)
Definition Chr (c : ascii) : regex := Class (Ascii.eqb c).

Fixpoint Lit (s : string) : regex :=
  match s with
  | EmptyString => Eps
  | String c s' => Seq (Chr c) (Lit s')
  end.

(** Character classes. *)
Definition in_range (lo hi c : ascii) : bool :=
  (nat_of_ascii lo <=? nat_of_ascii c)%nat && (nat_of_ascii c <=? nat_of_ascii hi)%nat.

Definition lower (c : ascii) : bool := in_range "a" "z" c.
Definition upper (c : ascii) : bool := in_range "A" "Z" c.
Definition digit (c : ascii) : bool := in_range "0" "9" c.

(** [.] without the [s] flag: any code unit that is not a line terminator
    (U+000A, U+000D; U+2028 and U+2029 lie outside the modelled range). *)
Definition line_terminator (c : ascii) : bool :=
  (nat_of_ascii c =? 10)%nat || (nat_of_ascii c =? 13)%nat.

Definition Dot : regex := Class (λ c, negb (line_terminator c)).

(** Reference semantics. *)
Inductive matches : regex → list ascii → Prop :=
  | m_eps : matches Eps []
  | m_class p c : p c = true → matches (Class p) [c]
  | m_seq r1 r2 s1 s2 : matches r1 s1 → matches r2 s2 → matches (Seq r1 r2) (s1 ++ s2)
  | m_alt_l r1 r2 s : matches r1 s → matches (Alt r1 r2) s
  | m_alt_r r1 r2 s : matches r2 s → matches (Alt r1 r2) s
  | m_star_nil r : matches (Star r) []
  | m_star_app r s1 s2 : matches r s1 → matches (Star r) s2 → matches (Star r) (s1 ++ s2).

(** The matcher. *)
Fixpoint nullable (r : regex) : bool :=
  match r with
  | Void => false
  | Eps => true
  | Class _ => false
  | Seq r1 r2 => nullable r1 && nullable r2
  | Alt r1 r2 => nullable r1 || nullable r2
  | Star _ => true
  end.

Fixpoint deriv (c : ascii) (r : regex) : regex :=
  match r with
  | Void => Void
  | Eps => Void
  | Class p => if p c then Eps else Void
  | Seq r1 r2 =>
      if nullable r1 then Alt (Seq (deriv c r1) r2) (deriv c r2)
      else Seq (deriv c r1) r2
  | Alt r1 r2 => Alt (deriv c r1) (deriv c r2)
  | Star r1 => Seq (deriv c r1) (Star r1)
  end.

(** [/^r$/.test(s)]: the whole input matches. *)
Fixpoint test_whole (r : regex) (s : list ascii) : bool :=
  match s with
  | [] => nullable r
  | c :: s' => test_whole (deriv c r) s'
  end.

(** [/^r/.test(s)]: some prefix of the input matches. *)
Fixpoint test_prefix (r : regex) (s : list ascii) : bool :=
  nullable r ||
  match s with
  | [] => false
  | c :: s' => test_prefix (deriv c r) s'
  end.

End Regex.

Import Regex.

(** ** The validators *)

(** [/^https?:\/\/.+/] *)
Definition urlPattern : regex :=
  Seq (Lit "http") (Seq (Opt (Chr "s")) (Seq (Chr ":") (Seq (Chr "/") (Seq (Chr "/") (Plus Dot))))).

(** [/^[a-zA-Z0-9]{3,20}$/] *)
Definition shortcodePattern : regex :=
  RepeatRange 3 20 (Class (λ c, lower c || upper c || digit c)).

(** The pattern as the specification writes it, [^[A-Za-z0-9]{3,20}$]. *)
Definition spec_shortcodePattern : regex :=
  RepeatRange 3 20 (Class (λ c, upper c || lower c || digit c)).

Definition alnum (c : ascii) : bool := upper c || lower c || digit c.

Definition validateShortcode (shortcode : string) : bool :=
  test_whole shortcodePattern (list_ascii_of_string shortcode).

(** [validateURL]: the pattern test, then [new URL(url)] inside [try].
    [new URL] is the browser's parser: [url_parses url = true] when the
    constructor returns, [false] when it throws. *)
Definition validateURL (url_parses : string → bool) (url : string) : bool :=
  if negb (test_prefix urlPattern (list_ascii_of_string url)) then false
  else if url_parses url then true
  else false.

(** ** Values held by the registry *)

(** A timestamp field of a record.  A record built by the running code holds
    a [Date] object, valid or invalid (time value [NaN]).  A record restored
    by [JSON.parse] holds what [JSON.stringify] wrote for the [Date]: its
    [toISOString()] text for a valid one, [null] for an invalid one.
    [IsoString t] stands for the string [new Date(t).toISOString()]. *)
Inductive jsdate : Type :=
  | DateObj (t : Z)
  | DateInvalid
  | IsoString (t : Z)
  | JsonNull.

(** Largest magnitude of a valid time value (ECMAScript TimeClip). *)
Definition max_time : Z := 8640000000000000.

(** [new Date(t)] for an integral number [t].  The sum the code passes is
    computed in doubles, which is exact at every magnitude where the result
    is a valid time value. *)
Definition new_Date (t : Z) : jsdate :=
  if Z.abs t <=? max_time then DateObj t else DateInvalid.

(** [now > d] for a valid [Date] [now] with time value [now_ms].  Both sides
    are converted to numbers: a [Date] gives its time value, an ISO string
    gives [NaN], [null] gives [0]; a comparison with [NaN] is false. *)
Definition date_gt (now_ms : Z) (d : jsdate) : bool :=
  match d with
  | DateObj t => t <? now_ms
  | DateInvalid => false
  | IsoString _ => false
  | JsonNull => 0 <? now_ms
  end.

(** The instant a timestamp field denotes, if any. *)
Definition instant (d : jsdate) : option Z :=
  match d with
  | DateObj t | IsoString t => Some t
  | DateInvalid | JsonNull => None
  end.

(** What [JSON.parse (JSON.stringify d)] gives. *)
Definition json_date (d : jsdate) : jsdate :=
  match d with
  | DateObj t => IsoString t
  | DateInvalid => JsonNull
  | IsoString t => IsoString t
  | JsonNull => JsonNull
  end.

Record ClickEvent : Type := mkClick {
  timestamp : jsdate;
  source : string;
  location : string
}.

Record URLRecord : Type := mkURL {
  id : string;
  originalUrl : string;
  shortcode : string;
  shortUrl : string;
  createdAt : jsdate;
  expiresAt : jsdate;
  validityMinutes : Z;
  clickCount : Z;
  clicks : list ClickEvent
}.

Definition json_click (c : ClickEvent) : ClickEvent :=
  mkClick (json_date (timestamp c)) (source c) (location c).

Definition json_record (r : URLRecord) : URLRecord :=
  mkURL (id r) (originalUrl r) (shortcode r) (shortUrl r)
        (json_date (createdAt r)) (json_date (expiresAt r))
        (validityMinutes r) (clickCount r) (map json_click (clicks r)).

(** The fields of a [URLService] instance. *)
Record Registry : Type := mkRegistry {
  urls : gmap string URLRecord;
  clickData : gmap string (list ClickEvent);
  shortcodeCounter : Z;
  usedShortcodes : gset string
}.

(** The object [JSON.parse] returns for the text kept under the key
    ['urlShortenerData']. *)
Record StoredData : Type := mkStored {
  stored_urls : list (string * URLRecord);
  stored_clickData : list (string * list ClickEvent);
  stored_usedShortcodes : list string
}.

(** The service instance together with the storage it persists to;
    [localStorage = None] when the key is absent. *)
Record System : Type := mkSystem {
  service : Registry;
  localStorage : option StoredData
}.

(** What one call reads from the browser: the [k]-th value of
    [Math.floor(Math.random() * chars.length)], the clock at each place that
    reads it, [window.location.origin], [document.referrer], and whether
    [localStorage.setItem] succeeds ([false]: it throws, e.g. quota). *)
Record Browser : Type := mkBrowser {
  random_index : nat → nat;
  now_fallback : Z;
  now_created : Z;
  now_id : Z;
  now_lookup : Z;
  now_click : Z;
  now_cleanup : Z;
  origin : string;
  referrer : string;
  storage_ok : bool
}.

(** The result objects [{ success: true, data }] and
    [{ success: false, error }]. *)
Inductive result : Type :=
  | Success (data : URLRecord)
  | Failure (error : string).

(** How a call ends: it returns, or an exception escapes it. *)
Inductive completion (A : Type) : Type :=
  | Return (a : A)
  | Throw (exn : string).
Arguments Return {A} a.
Arguments Throw {A} exn.

(** The [validityMinutes] argument: an integral number, or a value for which
    [Number.isInteger] is false (a fraction, [NaN], an infinity, a string). *)
Inductive jsnum : Type :=
  | Integer (z : Z)
  | NotInteger.

Definition err_invalid_url : string :=
  "Invalid URL format. Please provide a valid HTTP/HTTPS URL.".
Definition err_invalid_validity : string :=
  "Validity period must be a positive integer (minutes).".
Definition err_invalid_shortcode : string :=
  "Invalid shortcode format. Use 3-20 alphanumeric characters.".
Definition err_shortcode_taken : string :=
  "Shortcode already in use. Please choose a different one.".
Definition err_not_found : string := "Short URL not found.".
Definition err_expired : string := "Short URL has expired.".

(** ** Persistence *)

(** [new Map(entries)]: entries are set in order, a later one wins. *)
Definition Map_of {V : Type} (entries : list (string * V)) : gmap string V :=
  foldl (λ m kv, <[kv.1 := kv.2]> m) ∅ entries.

Definition Set_of (xs : list string) : gset string :=
  foldl (λ s x, {[x]} ∪ s) ∅ xs.

(** The [data] object of [saveToStorage] after its trip through
    [JSON.stringify] and [JSON.parse]. *)
Definition serialize (reg : Registry) : StoredData :=
  mkStored (map (λ kv, (kv.1, json_record kv.2)) (map_to_list (urls reg)))
           (map (λ kv, (kv.1, map json_click kv.2)) (map_to_list (clickData reg)))
           (elements (usedShortcodes reg)).

Definition saveToStorage (b : Browser) (s : System) : System :=
  if storage_ok b then mkSystem (service s) (Some (serialize (service s)))
  else s.

Definition loadFromStorage (s : System) : System :=
  match localStorage s with
  | None => s
  | Some d =>
      mkSystem (mkRegistry (Map_of (stored_urls d)) (Map_of (stored_clickData d))
                           (shortcodeCounter (service s))
                           (Set_of (stored_usedShortcodes d)))
               (localStorage s)
  end.

(** The constructor, run on a browser whose storage holds [ls]. *)
Definition boot (ls : option StoredData) : System :=
  loadFromStorage (mkSystem (mkRegistry ∅ ∅ 1 ∅) ls).

(** A page reload: the module is evaluated again over the same storage. *)
Definition restart (s : System) : System := boot (localStorage s).

Definition initial : System := boot None.

(** ** Shortcodes *)

Definition isShortcodeAvailable (reg : Registry) (shortcode : string) : bool :=
  negb (bool_decide (shortcode ∈ usedShortcodes reg)).

Definition chars : string :=
  "ABCDEFGHIJKLMNOPQRSTUVWXYZabcdefghijklmnopqrstuvwxyz0123456789".

Definition maxAttempts : nat := 100.

(** [s.charAt(i)]: the one-character string at [i], the empty string when
    [i] is out of range. *)
Definition charAt (s : string) (i : nat) : string :=
  match String.get i s with
  | Some c => String c EmptyString
  | None => EmptyString
  end.

(** The inner [for] loop of attempt number [attempt] (counted from 0): six
    characters, the [k]-th random draw of the call choosing the [k]-th. *)
Definition sample (b : Browser) (attempt : nat) : string :=
  foldl (λ shortcode i, shortcode +:+ charAt chars (random_index b (6 * attempt + i)%nat))
        EmptyString (seq 0 6).

(** The [do ... while] loop, entered with [attempts] attempts made so far;
    it returns the last sampled code and the final value of [attempts].
    [fuel] bounds the number of further iterations. *)
Fixpoint sample_loop (b : Browser) (used : gset string) (fuel attempts : nat)
  : string * nat :=
  let shortcode := sample b attempts in
  let attempts' := S attempts in
  if bool_decide (shortcode ∈ used) && (attempts' <? maxAttempts)%nat then
    match fuel with
    | O => (shortcode, attempts')
    | S fuel' => sample_loop b used fuel' attempts'
    end
  else (shortcode, attempts').

(** [Number.prototype.toString(36)] on an integer. *)
Definition digits36 : string := "0123456789abcdefghijklmnopqrstuvwxyz".

Fixpoint toString36_go (fuel : nat) (n : Z) (acc : string) : string :=
  let acc' := charAt digits36 (Z.to_nat (n mod 36)) +:+ acc in
  match fuel with
  | O => acc'
  | S fuel' => if n <? 36 then acc' else toString36_go fuel' (n / 36) acc'
  end.

Definition toString36 (n : Z) : string :=
  if n <? 0 then "-" +:+ toString36_go (Z.to_nat (Z.log2 (- n))) (- n) EmptyString
  else toString36_go (Z.to_nat (Z.log2 n)) n EmptyString.

Definition generateShortcode (b : Browser) (reg : Registry) : string * Registry :=
  let '(sampled, attempts) := sample_loop b (usedShortcodes reg) maxAttempts 0 in
  let shortcode :=
    if (maxAttempts <=? attempts)%nat then "url" +:+ toString36 (now_fallback b)
    else sampled in
  (shortcode,
   mkRegistry (urls reg) (clickData reg) (shortcodeCounter reg)
              ({[shortcode]} ∪ usedShortcodes reg)).

(** ** Creating a record *)

(** The shortcode the new record gets, or the error that ends the call. *)
Definition chooseShortcode (b : Browser) (customShortcode : option string)
    (reg : Registry) : string + string * Registry :=
  match customShortcode with
  | Some (String c rest as custom) =>
      if negb (validateShortcode custom) then inl err_invalid_shortcode
      else if negb (isShortcodeAvailable reg custom) then inl err_shortcode_taken
      else inr (custom, reg)
  | Some EmptyString | None => inr (generateShortcode b reg)
  end.

(** [createShortURL(originalUrl, validityMinutes = 30, customShortcode = null)];
    [None] is an omitted argument.  The last statement before [return]
    evaluates [expiresAt.toISOString()], which throws a [RangeError] on an
    invalid [Date]: by then the record is stored and saved. *)
Definition createShortURL (url_parses : string → bool) (b : Browser)
    (originalUrl : string) (validity : option jsnum)
    (customShortcode : option string) (s : System) : completion result * System :=
  if negb (validateURL url_parses originalUrl) then
    (Return (Failure err_invalid_url), s)
  else
    match default (Integer 30) validity with
    | NotInteger => (Return (Failure err_invalid_validity), s)
    | Integer minutes =>
        if minutes <=? 0 then (Return (Failure err_invalid_validity), s)
        else
          match chooseShortcode b customShortcode (service s) with
          | inl error => (Return (Failure error), s)
          | inr (code, reg) =>
              let created := DateObj (now_created b) in
              let expires := new_Date (now_created b + minutes * 60 * 1000) in
              let urlData :=
                mkURL (pretty (now_id b)) originalUrl code
                      (origin b +:+ "/" +:+ code)
                      created expires minutes 0 [] in
              let reg' :=
                mkRegistry (<[code := urlData]> (urls reg))
                           (<[code := []]> (clickData reg))
                           (shortcodeCounter reg) (usedShortcodes reg) in
              let s' := saveToStorage b (mkSystem reg' (localStorage s)) in
              match expires with
              | DateInvalid => (Throw "RangeError", s')
              | _ => (Return (Success urlData), s')
              end
          end
    end.

(** ** Resolving a shortcode *)

Definition getClickSource (b : Browser) : string :=
  match referrer b with
  | EmptyString => "Direct"
  | r => r
  end.

Definition getClickLocation : string := "Unknown".

(** The [clickData] object literal of [recordClick]. *)
Definition click_of (b : Browser) : ClickEvent :=
  mkClick (DateObj (now_click b)) (getClickSource b) getClickLocation.

(** [urlData.clickCount++; urlData.clicks.push(clickData)]. *)
Definition clicked (urlData : URLRecord) (click : ClickEvent) : URLRecord :=
  mkURL (id urlData) (originalUrl urlData) (shortcode urlData) (shortUrl urlData)
        (createdAt urlData) (expiresAt urlData) (validityMinutes urlData)
        (clickCount urlData + 1) (clicks urlData ++ [click]).

(** [recordClick].  The record object is updated in place, then the click
    history; [this.clickData.get(shortcode).push] throws a [TypeError] when
    the history is missing, after the record has been changed. *)
Definition recordClick (b : Browser) (code : string) (s : System)
  : completion unit * System :=
  let reg := service s in
  match urls reg !! code with
  | None => (Return tt, s)
  | Some urlData =>
      let urls' := <[code := clicked urlData (click_of b)]> (urls reg) in
      match clickData reg !! code with
      | None =>
          (Throw "TypeError",
           mkSystem (mkRegistry urls' (clickData reg) (shortcodeCounter reg)
                                (usedShortcodes reg)) (localStorage s))
      | Some history =>
          (Return tt,
           saveToStorage b
             (mkSystem (mkRegistry urls' (<[code := history ++ [click_of b]]> (clickData reg))
                                   (shortcodeCounter reg) (usedShortcodes reg))
                       (localStorage s)))
      end
  end.

(** [getOriginalURL].  [urlData] is the object held by [this.urls], the one
    [recordClick] updates, so the [data] returned is the record as it stands
    in the map after the click. *)
Definition getOriginalURL (b : Browser) (code : string) (s : System)
  : completion result * System :=
  match urls (service s) !! code with
  | None => (Return (Failure err_not_found), s)
  | Some urlData =>
      if date_gt (now_lookup b) (expiresAt urlData) then
        (Return (Failure err_expired), s)
      else
        match recordClick b code s with
        | (Throw exn, s') => (Throw exn, s')
        | (Return _, s') =>
            (Return (Success (default urlData (urls (service s') !! code))), s')
        end
  end.

Definition getAllURLs (s : System) : list URLRecord :=
  (map_to_list (urls (service s))).*2.

Definition getURLStats (code : string) (s : System) : option URLRecord :=
  match urls (service s) !! code with
  | None => None
  | Some urlData =>
      Some (mkURL (id urlData) (originalUrl urlData) (shortcode urlData)
                  (shortUrl urlData) (createdAt urlData) (expiresAt urlData)
                  (validityMinutes urlData) (clickCount urlData)
                  (default [] (clickData (service s) !! code)))
  end.

(** ** Cleanup *)

(** One turn of the [for ... of] loop over [this.urls.entries()]. *)
Definition cleanup_entry (now_ms : Z) (acc : Registry * Z) (entry : string * URLRecord)
  : Registry * Z :=
  let '(reg, cleanedCount) := acc in
  if date_gt now_ms (expiresAt entry.2) then
    (mkRegistry (delete entry.1 (urls reg)) (delete entry.1 (clickData reg))
                (shortcodeCounter reg) (usedShortcodes reg ∖ {[entry.1]}),
     cleanedCount + 1)
  else acc.

(** The loop only deletes the entry it is visiting, so it visits exactly the
    entries present when it starts. *)
Definition cleanupExpiredURLs (b : Browser) (s : System) : System :=
  let '(reg, cleanedCount) :=
    foldl (cleanup_entry (now_cleanup b)) (service s, 0)
          (map_to_list (urls (service s))) in
  if 0 <? cleanedCount then saveToStorage b (mkSystem reg (localStorage s))
  else mkSystem reg (localStorage s).

(** ** Runs of the registry *)

Section Runs.

Variable url_parses : string → bool.

(** One operation on the running page, or a reload. *)
Inductive step : System → System → Prop :=
  | step_create b url validity custom s :
      step s (createShortURL url_parses b url validity custom s).2
  | step_resolve b code s :
      step s (getOriginalURL b code s).2
  | step_click b code s :
      step s (recordClick b code s).2
  | step_cleanup b s :
      step s (cleanupExpiredURLs b s)
  | step_save b s :
      step s (saveToStorage b s)
  | step_restart s :
      step s (restart s).

Inductive reachable : System → Prop :=
  | reach_initial : reachable initial
  | reach_step s s' : reachable s → step s s' → reachable s'.

End Runs.

(** ** Invariants of the stores *)

(** [clickCount] is the length of [clicks]. *)
Definition counts_clicks (r : URLRecord) : Prop :=
  clickCount r = Z.of_nat (length (clicks r)).

(** Same keys in both maps; each record's [clicks] is its history, and its
    [clickCount] their number. *)
Definition maps_ok (u : gmap string URLRecord) (h : gmap string (list ClickEvent)) : Prop :=
  ∀ code : string,
    match u !! code, h !! code with
    | Some r, Some history => clicks r = history ∧ counts_clicks r
    | None, None => True
    | _, _ => False
    end.

(** What storage holds was saved from a registry whose maps agree. *)
Definition disk_ok (ls : option StoredData) : Prop :=
  ∀ d, ls = Some d → ∃ reg, d = serialize reg ∧ maps_ok (urls reg) (clickData reg).

(** The invariant of the page: the maps agree, in memory and in storage. *)
Definition sys_inv (s : System) : Prop :=
  maps_ok (urls (service s)) (clickData (service s)) ∧ disk_ok (localStorage s).

(** ** Reloading and creating, in closed form *)

(** The registry a reload rebuilds from what [reg] saved. *)
Definition reloaded (reg : Registry) : Registry :=
  mkRegistry (json_record <$> urls reg) (map json_click <$> clickData reg) 1
             (usedShortcodes reg).

(** The record [createShortURL] builds for shortcode [code]. *)
Definition new_record (b : Browser) (url : string) (minutes : Z) (code : string)
  : URLRecord :=
  mkURL (pretty (now_id b)) url code (origin b +:+ "/" +:+ code)
        (DateObj (now_created b)) (new_Date (now_created b + minutes * 60 * 1000))
        minutes 0 [].

(** The state it leaves, [reg] being the registry after the shortcode was
    chosen. *)
Definition stored_record (b : Browser) (url : string) (minutes : Z) (code : string)
    (reg : Registry) (ls : option StoredData) : System :=
  saveToStorage b
    (mkSystem (mkRegistry (<[code := new_record b url minutes code]> (urls reg))
                          (<[code := []]> (clickData reg))
                          (shortcodeCounter reg) (usedShortcodes reg)) ls).

(** ** Concrete inputs *)

(** A URL constructor that accepts what it is given. *)
Definition accept_all : string → bool := λ _, true.

(** A browser whose clock stands at [t] and whose random draws are [draw];
    storage accepts writes and there is no referrer. *)
Definition browser_at (t : Z) (draw : nat → nat) : Browser :=
  mkBrowser draw t t t t t t "http://localhost:3000" EmptyString true.

(** One record with a generated shortcode (["AAAAAA"], all draws being 0),
    created at time 0 and valid for one minute. *)
Definition one_minute_link : System :=
  (createShortURL accept_all (browser_at 0 (λ _, 0%nat)) "https://example.com"
                  (Some (Integer 1)) None initial).2.

(** One record with the custom shortcode ["abc"]. *)
Definition custom_link : completion result * System :=
  createShortURL accept_all (browser_at 0 (λ _, 0%nat)) "https://example.com"
                 None (Some "abc") initial.

(** Draws that give ["AAAAAA"] for the first 99 attempts and ["BBBBBB"] for
    the 100th. *)
Definition collide_99_times : Browser :=
  browser_at 1700000000000 (λ k, if (k <? 594)%nat then 0%nat else 1%nat).

(** The record of [one_minute_link], resolved once. *)
Definition resolved_once : System :=
  (getOriginalURL (browser_at 30000 (λ _, 0%nat)) "AAAAAA" one_minute_link).2.

(** ** The rest of the service *)

(** The same browser with [localStorage.setItem] succeeding or not. *)
Definition with_storage (ok : bool) (b : Browser) : Browser :=
  mkBrowser (random_index b) (now_fallback b) (now_created b) (now_id b)
            (now_lookup b) (now_click b) (now_cleanup b) (origin b) (referrer b) ok.

(** One object of the array [debugGetAllURLs] returns. *)
Record DebugEntry : Type := mkDebug {
  debug_shortcode : string;
  debug_originalUrl : string;
  debug_shortUrl : string;
  debug_createdAt : jsdate;
  debug_expiresAt : jsdate;
  debug_isExpired : bool
}.

(** [debugGetAllURLs]; the callback reads the clock once per entry,
    [now_at i] for the entry at index [i]. *)
Definition debugGetAllURLs (now_at : nat → Z) (s : System) : list DebugEntry :=
  imap (λ i entry,
          mkDebug entry.1 (originalUrl entry.2) (shortUrl entry.2)
                  (createdAt entry.2) (expiresAt entry.2)
                  (date_gt (now_at i) (expiresAt entry.2)))
       (map_to_list (urls (service s))).

(** Draws that give ["AAAAAA"] on the first attempt and ["BBBBBB"] on the
    second. *)
Definition collide_once : Browser :=
  browser_at 7 (λ k, if (k <? 6)%nat then 0%nat else 1%nat).

(** ** The logger ([src/utils/logger.js]) *)

Module Log.

(** A value held in [currentLevel]: a number, or something that is not one
    (a function or object found on [Object.prototype]), which every [>=]
    turns into [NaN]. *)
Inductive level : Type :=
  | Num (n : Z)
  | NotANumber.

(** What [this.logLevels[name]] evaluates to. *)
Inductive lookup : Type :=
  | Own (n : Z)
  | Inherited
  | Undefined.

Definition ERROR : Z := 0.
Definition WARN : Z := 1.
Definition INFO : Z := 2.
Definition DEBUG : Z := 3.

(** [on_prototype name]: whether [name] is a property of [Object.prototype]
    (["toString"], ["constructor"], ...); none of the four level names is. *)
Definition logLevels (on_prototype : string → bool) (name : string) : lookup :=
  if String.eqb name "ERROR" then Own ERROR
  else if String.eqb name "WARN" then Own WARN
  else if String.eqb name "INFO" then Own INFO
  else if String.eqb name "DEBUG" then Own DEBUG
  else if on_prototype name then Inherited
  else Undefined.

(** A log entry; [timestamp] is the clock reading whose ISO text the entry
    holds, [data] the JSON text of the data object, [None] for [null]. *)
Record Entry : Type := mkEntry {
  timestamp : Z;
  level_tag : string;
  message : string;
  data : option string
}.

Record Logger : Type := mkLogger {
  logs : list Entry;
  currentLevel : level
}.

(** The constructor. *)
Definition new : Logger := mkLogger [] (Num INFO).

(** [this.logLevels[level] || this.logLevels.INFO]: [0] is falsy. *)
Definition setLevel (on_prototype : string → bool) (name : string) (lg : Logger) : Logger :=
  mkLogger (logs lg)
           (match logLevels on_prototype name with
            | Own n => if n =? 0 then Num INFO else Num n
            | Inherited => NotANumber
            | Undefined => Num INFO
            end).

(** [this.currentLevel >= threshold]. *)
Definition at_least (threshold : Z) (lv : level) : bool :=
  match lv with
  | Num n => threshold <=? n
  | NotANumber => false
  end.

(** [formatLog]; [data] is [None] for a falsy argument and [Some text] for a
    truthy one whose [JSON.stringify(data, null, 2)] is [text].  The entry
    is pushed and returned. *)
Definition formatLog (now_ms : Z) (tag msg : string) (data : option string)
    (lg : Logger) : Entry * Logger :=
  let logEntry := mkEntry now_ms tag msg data in
  (logEntry, mkLogger (logs lg ++ [logEntry]) (currentLevel lg)).

(** The four logging methods; what [displayLog] prints to the console is
    left out. *)
Definition error (now_ms : Z) (msg : string) (data : option string) (lg : Logger) : Logger :=
  if at_least ERROR (currentLevel lg) then (formatLog now_ms "ERROR" msg data lg).2 else lg.

Definition warn (now_ms : Z) (msg : string) (data : option string) (lg : Logger) : Logger :=
  if at_least WARN (currentLevel lg) then (formatLog now_ms "WARN" msg data lg).2 else lg.

Definition info (now_ms : Z) (msg : string) (data : option string) (lg : Logger) : Logger :=
  if at_least INFO (currentLevel lg) then (formatLog now_ms "INFO" msg data lg).2 else lg.

Definition debug (now_ms : Z) (msg : string) (data : option string) (lg : Logger) : Logger :=
  if at_least DEBUG (currentLevel lg) then (formatLog now_ms "DEBUG" msg data lg).2 else lg.

Definition getLogs (lg : Logger) : list Entry := logs lg.

Definition clearLogs (lg : Logger) : Logger := mkLogger [] (currentLevel lg).

Definition getLogsByLevel (tag : string) (lg : Logger) : list Entry :=
  filter (λ entry, level_tag entry = tag) (logs lg).

(** A use of the logger through its level and logging methods. *)
Inductive step (on_prototype : string → bool) : Logger → Logger → Prop :=
  | step_setLevel name lg : step on_prototype lg (setLevel on_prototype name lg)
  | step_error t msg d lg : step on_prototype lg (error t msg d lg)
  | step_warn t msg d lg : step on_prototype lg (warn t msg d lg)
  | step_info t msg d lg : step on_prototype lg (info t msg d lg)
  | step_debug t msg d lg : step on_prototype lg (debug t msg d lg)
  | step_clearLogs lg : step on_prototype lg (clearLogs lg).

Inductive reachable (on_prototype : string → bool) : Logger → Prop :=
  | reach_new : reachable on_prototype new
  | reach_step lg lg' :
      reachable on_prototype lg → step on_prototype lg lg' → reachable on_prototype lg'.

End Log.

(** ** The submission form (the [URLShortener] component)

    The component keeps an array of input rows in React state; each handler
    computes the next array from the current one. *)
Module Form.

(** A row id: a number, or [-Infinity] (what [Math.max()] gives for an empty
    array). *)
Inductive rowid : Type :=
  | Id (n : Z)
  | MinusInfinity.

#[global] Instance rowid_eq_dec : EqDecision rowid.
Proof. solve_decision. Defined.

Definition rowid_max (a b : rowid) : rowid :=
  match a, b with
  | Id x, Id y => Id (Z.max x y)
  | Id x, MinusInfinity => Id x
  | MinusInfinity, b => b
  end.

(** [Math.max(...ids)]. *)
Definition Math_max (ids : list rowid) : rowid := foldr rowid_max MinusInfinity ids.

(** [x + 1]. *)
Definition plus_one (x : rowid) : rowid :=
  match x with
  | Id n => Id (n + 1)
  | MinusInfinity => MinusInfinity
  end.

Record Row : Type := mkRow {
  row_id : rowid;
  row_originalUrl : string;
  row_validityMinutes : jsnum;
  row_customShortcode : string;
  row_result : option URLRecord;
  row_error : option string
}.

(** The state [useState] starts with. *)
Definition initial_rows : list Row :=
  [mkRow (Id 1) EmptyString (Integer 30) EmptyString None None].

Definition addUrlRow (urls : list Row) : list Row :=
  if (5 <=? length urls)%nat then urls
  else
    let newId := plus_one (Math_max (map row_id urls)) in
    urls ++ [mkRow newId EmptyString (Integer 30) EmptyString None None].

Definition removeUrlRow (i : rowid) (urls : list Row) : list Row :=
  if (length urls <=? 1)%nat then urls
  else filter (λ url, row_id url ≠ i) urls.

(** The three fields the inputs update, with the value they pass. *)
Inductive field : Type :=
  | originalUrl_field (value : string)
  | validityMinutes_field (value : jsnum)
  | customShortcode_field (value : string).

Definition updateUrlField (i : rowid) (f : field) (urls : list Row) : list Row :=
  map (λ url,
         if decide (row_id url = i) then
           match f with
           | originalUrl_field v =>
               mkRow (row_id url) v (row_validityMinutes url) (row_customShortcode url) None None
           | validityMinutes_field v =>
               mkRow (row_id url) (row_originalUrl url) v (row_customShortcode url) None None
           | customShortcode_field v =>
               mkRow (row_id url) (row_originalUrl url) (row_validityMinutes url) v None None
           end
         else url)
      urls.

Definition clearResults (urls : list Row) : list Row :=
  map (λ url, mkRow (row_id url) (row_originalUrl url) (row_validityMinutes url)
                    (row_customShortcode url) None None)
      urls.

(** White space and line terminators that [trim] strips, among the code
    units modelled. *)
Definition is_space (c : ascii) : bool :=
  let n := nat_of_ascii c in
  ((9 <=? n) && (n <=? 13) || (n =? 32) || (n =? 160))%nat.

(** [!s.trim()]: nothing is left of [s] once trimmed. *)
Definition blank (s : string) : bool := forallb is_space (list_ascii_of_string s).

(** [urls.filter(url => url.originalUrl.trim())]. *)
Definition validUrls (urls : list Row) : list Row :=
  filter (λ url, blank (row_originalUrl url) = false) urls.

(** The three checks [validateAllUrls] makes on one row: the message of the
    first that fails. *)
Definition row_problem (url_parses : string → bool) (url : Row) : option string :=
  if negb (validateURL url_parses (row_originalUrl url)) then Some err_invalid_url
  else
    match row_validityMinutes url with
    | NotInteger => Some err_invalid_validity
    | Integer minutes =>
        if minutes <=? 0 then Some err_invalid_validity
        else
          match row_customShortcode url with
          | EmptyString => None
          | custom =>
              if negb (validateShortcode custom) then Some err_invalid_shortcode
              else None
          end
    end.

(** [urls.map(u => u.id === id ? { ...u, error } : u)]. *)
Definition set_error (i : rowid) (msg : string) (urls : list Row) : list Row :=
  map (λ u, if decide (row_id u = i)
            then mkRow (row_id u) (row_originalUrl u) (row_validityMinutes u)
                       (row_customShortcode u) (row_result u) (Some msg)
            else u)
      urls.

(** The [for ... of] loop of [validateAllUrls]: the first row with a problem. *)
Fixpoint first_problem (url_parses : string → bool) (rows : list Row)
  : option (rowid * string) :=
  match rows with
  | [] => None
  | url :: rest =>
      match row_problem url_parses url with
      | Some msg => Some (row_id url, msg)
      | None => first_problem url_parses rest
      end
  end.

(** [validateAllUrls]: its verdict and the rows it leaves in the state. *)
Definition validateAllUrls (url_parses : string → bool) (urls : list Row)
  : bool * list Row :=
  match validUrls urls with
  | [] => (false, urls)
  | valid =>
      match first_problem url_parses valid with
      | Some (i, msg) => (false, set_error i msg urls)
      | None => (true, urls)
      end
  end.

(** An element of [results] in [processUrls]. *)
Record Outcome : Type := mkOutcome {
  outcome_id : rowid;
  outcome_result : option URLRecord;
  outcome_error : option string
}.

Definition err_unexpected : string := "An unexpected error occurred.".

(** The [for ... of] loop of [processUrls]; the call for the row at position
    [i] of the rows it walks reads the browser as [envs i]. *)
Fixpoint process_loop (url_parses : string → bool) (envs : nat → Browser) (i : nat)
    (rows : list Row) (s : System) : list Outcome * System :=
  match rows with
  | [] => ([], s)
  | url :: rest =>
      let call :=
        createShortURL url_parses (envs i) (row_originalUrl url)
                       (Some (row_validityMinutes url))
                       (match row_customShortcode url with
                        | EmptyString => None
                        | custom => Some custom
                        end) s in
      let outcome :=
        match call.1 with
        | Return (Success data) => mkOutcome (row_id url) (Some data) None
        | Return (Failure error) => mkOutcome (row_id url) None (Some error)
        | Throw _ => mkOutcome (row_id url) None (Some err_unexpected)
        end in
      let '(outcomes, s') := process_loop url_parses envs (S i) rest call.2 in
      (outcome :: outcomes, s')
  end.

(** [urls.map(url => { const result = results.find(...); return result ?
    { ...url, ...result } : url })]. *)
Definition merge_results (results : list Outcome) (urls : list Row) : list Row :=
  map (λ url,
         match List.find (λ r, bool_decide (outcome_id r = row_id url)) results with
         | Some r => mkRow (outcome_id r) (row_originalUrl url) (row_validityMinutes url)
                           (row_customShortcode url) (outcome_result r) (outcome_error r)
         | None => url
         end)
      urls.

(** [processUrls]: the rows it leaves in the state and what it did to the
    service.  A row's [result] is the record as the service returned it. *)
Definition processUrls (url_parses : string → bool) (envs : nat → Browser)
    (urls : list Row) (s : System) : list Row * System :=
  let '(ok, urls') := validateAllUrls url_parses urls in
  if negb ok then (urls', s)
  else
    let '(results, s') := process_loop url_parses envs 0 (validUrls urls) s in
    (merge_results results urls, s').

(** How [processUrls] leaves a row it submitted: with a record for the
    row's URL (under the custom shortcode if one was given) and no error, or
    with no record and one of the two errors that can remain after
    validation. *)
Definition settled (u : Row) (result : option URLRecord) (error : option string) : Prop :=
  (∃ r, result = Some r ∧ error = None ∧
        originalUrl r = row_originalUrl u ∧
        (row_customShortcode u ≠ EmptyString → shortcode r = row_customShortcode u)) ∨
  (result = None ∧
   (error = Some err_shortcode_taken ∧ row_customShortcode u ≠ EmptyString ∨
    error = Some err_unexpected)).

(** What the user can do to the rows. *)
Inductive step (url_parses : string → bool) : list Row → list Row → Prop :=
  | step_add urls : step url_parses urls (addUrlRow urls)
  | step_remove i urls : step url_parses urls (removeUrlRow i urls)
  | step_update i f urls : step url_parses urls (updateUrlField i f urls)
  | step_clear urls : step url_parses urls (clearResults urls)
  | step_process envs urls s : step url_parses urls (processUrls url_parses envs urls s).1.

Inductive reachable (url_parses : string → bool) : list Row → Prop :=
  | reach_initial : reachable url_parses initial_rows
  | reach_step urls urls' :
      reachable url_parses urls → step url_parses urls urls' → reachable url_parses urls'.

End Form.

(** ** The statistics page (the [Statistics] component) *)

#[global] Instance jsdate_eq_dec : EqDecision jsdate.
Proof. solve_decision. Defined.

Module Stats.

(** [new Date(value)] for the value of a timestamp field: a [Date] is
    copied, an ISO string is parsed back to its instant, [null] gives the
    epoch. *)
Definition to_Date (d : jsdate) : jsdate :=
  match d with
  | DateObj t => DateObj t
  | DateInvalid => DateInvalid
  | IsoString t => DateObj t
  | JsonNull => DateObj 0
  end.

(** [now <= d] for a valid [Date] [now]. *)
Definition date_le (now_ms : Z) (d : jsdate) : bool :=
  match d with
  | DateObj t => now_ms <=? t
  | DateInvalid => false
  | IsoString _ => false
  | JsonNull => now_ms <=? 0
  end.


(** [loadURLs]: the records the page shows. *)
Definition loadURLs (s : System) : list URLRecord := getAllURLs s.


(** The "Active URLs" and "Expired URLs" counters; each filter callback
    reads the clock, [now_at i] for the record at index [i]. *)
Definition activeCount (now_at : nat → Z) (urls : list URLRecord) : nat :=
  length (filter (λ keep : bool, keep = true)
                 (imap (λ i url, date_le (now_at i) (to_Date (expiresAt url))) urls)).

Definition expiredCount (now_at : nat → Z) (urls : list URLRecord) : nat :=
  length (filter (λ keep : bool, keep = true)
                 (imap (λ i url, date_gt (now_at i) (to_Date (expiresAt url))) urls)).

(** The "Total Clicks" counter: [urls.reduce((total, url) => total +
    url.clickCount, 0)]. *)
Definition totalClicks (urls : list URLRecord) : Z :=
  foldl (λ total url, total + clickCount url) 0 urls.

(** [getDetailedStats]: [stats || url]. *)
Definition getDetailedStats (url : URLRecord) (s : System) : URLRecord :=
  default url (getURLStats (shortcode url) s).

End Stats.

(** ** The redirect page (the [RedirectHandler] component) *)
Module Redirect.

(** What [handleRedirect] ends in: the browser is sent to a URL, or the page
    shows an error. *)
Inductive outcome : Type :=
  | Navigated (url : string)
  | ShowError (msg : string).

Definition err_invalid_short_url : string := "Invalid short URL".
Definition err_unexpected : string := "An unexpected error occurred".

(** [handleRedirect]; [shortcode] is the route parameter, [None] when it is
    undefined. *)
Definition handleRedirect (b : Browser) (shortcode : option string) (s : System)
  : outcome * System :=
  match shortcode with
  | None | Some EmptyString => (ShowError err_invalid_short_url, s)
  | Some code =>
      match getOriginalURL b code s with
      | (Return (Success data), s') => (Navigated (originalUrl data), s')
      | (Return (Failure error), s') => (ShowError error, s')
      | (Throw _, s') => (ShowError err_unexpected, s')
      end
  end.

End Redirect.

(** * Properties *)

(** ** The matcher agrees with the reference semantics *)
Module RegexFacts.
Import Regex.

Lemma matches_seq_inv (r1 r2 : regex) (s : list ascii) :
  matches (Seq r1 r2) s ↔ ∃ s1 s2, s = s1 ++ s2 ∧ matches r1 s1 ∧ matches r2 s2.
Proof.
  split.
  - inversion 1; subst; eauto.
  - intros (s1 & s2 & -> & H1 & H2). by constructor.
Qed.

Lemma matches_alt_inv (r1 r2 : regex) (s : list ascii) :
  matches (Alt r1 r2) s ↔ matches r1 s ∨ matches r2 s.
Proof.
  split.
  - inversion 1; subst; auto.
  - intros [H|H]; [by apply m_alt_l | by apply m_alt_r].
Qed.

Lemma matches_eps_inv (s : list ascii) : matches Eps s ↔ s = [].
Proof. split; [by inversion 1 | intros ->; constructor]. Qed.

Lemma matches_class_inv (p : ascii → bool) (s : list ascii) :
  matches (Class p) s ↔ ∃ c, s = [c] ∧ p c = true.
Proof.
  split.
  - inversion 1; subst; eauto.
  - intros (c & -> & Hc). by constructor.
Qed.

Lemma matches_void_inv (s : list ascii) : ¬ matches Void s.
Proof. inversion 1. Qed.

Lemma nullable_matches (r : regex) : nullable r = true ↔ matches r [].
Proof.
  induction r as [| |p|r1 IH1 r2 IH2|r1 IH1 r2 IH2|r IH]; simpl.
  - split; [discriminate | inversion 1].
  - split; [constructor | reflexivity].
  - split; [discriminate | inversion 1].
  - rewrite andb_true_iff, IH1, IH2. split.
    + intros [H1 H2]. apply (m_seq _ _ [] [] H1 H2).
    + intros (s1 & s2 & Heq & H1 & H2)%matches_seq_inv. symmetry in Heq.
      apply app_eq_nil in Heq as [-> ->]. done.
  - rewrite orb_true_iff, IH1, IH2. split.
    + intros [H|H]; [by apply m_alt_l | by apply m_alt_r].
    + inversion 1; subst; auto.
  - split; [constructor | reflexivity].
Qed.

(** A non-empty match of [r*] starts with a non-empty match of [r]. *)
Lemma matches_star_cons (r : regex) (c : ascii) (s : list ascii) :
  matches (Star r) (c :: s) →
  ∃ s1 s2, s = s1 ++ s2 ∧ matches r (c :: s1) ∧ matches (Star r) s2.
Proof.
  intros H. remember (Star r) as r' eqn:Hr. remember (c :: s) as l eqn:Hl.
  revert c s Hl.
  induction H as [| | | | | |r0 s1 s2 H1 _ H2 IH2]; try discriminate.
  injection Hr as ->. intros c s Hl.
  destruct s1 as [|c1 s1]; simpl in Hl.
  - by apply IH2.
  - injection Hl as -> <-. eauto.
Qed.

Lemma deriv_matches (c : ascii) (r : regex) (s : list ascii) :
  matches (deriv c r) s ↔ matches r (c :: s).
Proof.
  revert s. induction r as [| |p|r1 IH1 r2 IH2|r1 IH1 r2 IH2|r IH]; intros s; simpl.
  - split; inversion 1.
  - split; inversion 1.
  - destruct (p c) eqn:Hp.
    + rewrite matches_eps_inv, matches_class_inv. split.
      * intros ->. eauto.
      * intros (c' & [= -> ->] & _). done.
    + rewrite matches_class_inv. split; [inversion 1|].
      intros (c' & [= -> ->] & Hc). congruence.
  - assert (Hseq : matches (Seq (deriv c r1) r2) s ↔
                   ∃ s1 s2, s = s1 ++ s2 ∧ matches r1 (c :: s1) ∧ matches r2 s2).
    { rewrite matches_seq_inv. by setoid_rewrite IH1. }
    rewrite (matches_seq_inv r1 r2).
    destruct (nullable r1) eqn:Hn.
    + rewrite matches_alt_inv, Hseq, IH2. split.
      * intros [(s1 & s2 & -> & H1 & H2)|H2].
        -- exists (c :: s1), s2. done.
        -- exists [], (c :: s). split; [done|]. split; [|done].
           by apply nullable_matches.
      * intros (s1 & s2 & Heq & H1 & H2). destruct s1 as [|c1 s1]; simpl in Heq.
        -- right. by subst.
        -- injection Heq as -> ->. left. eauto.
    + rewrite Hseq. split.
      * intros (s1 & s2 & -> & H1 & H2). exists (c :: s1), s2. done.
      * intros (s1 & s2 & Heq & H1 & H2). destruct s1 as [|c1 s1]; simpl in Heq.
        -- apply nullable_matches in H1. congruence.
        -- injection Heq as -> ->. eauto.
  - by rewrite !matches_alt_inv, IH1, IH2.
  - rewrite matches_seq_inv. setoid_rewrite IH. split.
    + intros (s1 & s2 & -> & H1 & H2). by apply (m_star_app r (c :: s1) s2).
    + apply matches_star_cons.
Qed.

Lemma test_whole_matches (r : regex) (s : list ascii) :
  test_whole r s = true ↔ matches r s.
Proof.
  revert r. induction s as [|c s IH]; intros r; simpl.
  - apply nullable_matches.
  - by rewrite IH, deriv_matches.
Qed.

Lemma test_prefix_matches (r : regex) (s : list ascii) :
  test_prefix r s = true ↔ ∃ s1 s2, s = s1 ++ s2 ∧ matches r s1.
Proof.
  revert r. induction s as [|c s IH]; intros r; simpl.
  - rewrite orb_false_r, nullable_matches. split.
    + intros H. by exists [], [].
    + intros (s1 & s2 & Heq & H). symmetry in Heq.
      apply app_eq_nil in Heq as [-> _]. done.
  - rewrite orb_true_iff, nullable_matches, IH. split.
    + intros [H|(s1 & s2 & -> & H)].
      * by exists [], (c :: s).
      * exists (c :: s1), s2. split; [done|]. by apply deriv_matches.
    + intros (s1 & s2 & Heq & H). destruct s1 as [|c1 s1]; simpl in Heq.
      * by left.
      * injection Heq as <- ->. right. exists s1, s2. split; [done|].
        by apply deriv_matches.
Qed.

(** ** What the abbreviations match *)

Lemma matches_chr (c : ascii) (s : list ascii) : matches (Chr c) s ↔ s = [c].
Proof.
  unfold Chr. rewrite matches_class_inv. split.
  - intros (c' & -> & Hc). apply Ascii.eqb_eq in Hc. by subst.
  - intros ->. exists c. split; [done|]. apply Ascii.eqb_refl.
Qed.

Lemma matches_lit (w : string) (s : list ascii) :
  matches (Lit w) s ↔ s = list_ascii_of_string w.
Proof.
  revert s. induction w as [|c w IH]; intros s; simpl.
  - apply matches_eps_inv.
  - rewrite matches_seq_inv. setoid_rewrite matches_chr. setoid_rewrite IH.
    split.
    + intros (s1 & s2 & -> & -> & ->). done.
    + intros ->. by exists [c], (list_ascii_of_string w).
Qed.

Lemma matches_opt (r : regex) (s : list ascii) :
  matches (Opt r) s ↔ matches r s ∨ s = [].
Proof. unfold Opt. by rewrite matches_alt_inv, matches_eps_inv. Qed.

Lemma matches_star_class (p : ascii → bool) (s : list ascii) :
  Forall (λ c, p c = true) s → matches (Star (Class p)) s.
Proof.
  induction 1 as [|c s Hc _ IH]; [constructor|].
  apply (m_star_app _ [c] s); [by constructor | done].
Qed.

Lemma matches_repeat_class (p : ascii → bool) (n : nat) (s : list ascii) :
  matches (Repeat n (Class p)) s ↔
  length s = n ∧ Forall (λ c, p c = true) s.
Proof.
  revert s. induction n as [|n IH]; intros s; simpl.
  - rewrite matches_eps_inv. split.
    + intros ->. done.
    + intros [Hl _]. by destruct s.
  - rewrite matches_seq_inv. setoid_rewrite matches_class_inv.
    setoid_rewrite IH. split.
    + intros (s1 & s2 & -> & (c & -> & Hc) & Hl & Hall). simpl.
      split; [by rewrite Hl | by constructor].
    + intros [Hl Hall]. destruct s as [|c s]; [done|].
      inversion Hall; subst. exists [c], s. simpl in Hl.
      split; [done|]. split; [eauto|]. split; [lia | done].
Qed.

Lemma matches_repeat_opt_class (p : ascii → bool) (n : nat) (s : list ascii) :
  matches (Repeat n (Opt (Class p))) s ↔
  (length s ≤ n)%nat ∧ Forall (λ c, p c = true) s.
Proof.
  revert s. induction n as [|n IH]; intros s; simpl.
  - rewrite matches_eps_inv. split.
    + intros ->. simpl. split; [lia | done].
    + intros [Hl _]. destruct s; [done | simpl in Hl; lia].
  - rewrite matches_seq_inv. setoid_rewrite matches_opt.
    setoid_rewrite matches_class_inv. setoid_rewrite IH. split.
    + intros (s1 & s2 & -> & [(c & -> & Hc)| ->] & Hl & Hall); simpl.
      * split; [lia | by constructor].
      * split; [lia | done].
    + intros [Hl Hall]. destruct s as [|c s].
      * exists [], []. simpl. repeat split; auto; lia.
      * inversion Hall; subst. exists [c], s. simpl in Hl.
        split; [done|]. split; [eauto|]. split; [lia | done].
Qed.

Lemma matches_repeat_range_class (p : ascii → bool) (lo hi : nat) (s : list ascii) :
  (lo ≤ hi)%nat →
  matches (RepeatRange lo hi (Class p)) s ↔
  (lo ≤ length s ≤ hi)%nat ∧ Forall (λ c, p c = true) s.
Proof.
  intros Hle. unfold RepeatRange. rewrite matches_seq_inv.
  setoid_rewrite matches_repeat_class. setoid_rewrite matches_repeat_opt_class.
  split.
  - intros (s1 & s2 & -> & [Hl1 Hall1] & [Hl2 Hall2]).
    rewrite length_app. split; [lia|]. by apply Forall_app.
  - intros [Hl Hall]. exists (take lo s), (drop lo s).
    rewrite take_drop, length_take, length_drop.
    split; [done|]. split; (split; [lia|]).
    + by apply Forall_take.
    + by apply Forall_drop.
Qed.

End RegexFacts.

(** ** The validators *)

Import RegexFacts.

Lemma length_list_ascii_of_string (s : string) :
  length (list_ascii_of_string s) = String.length s.
Proof. induction s as [|c s IH]; simpl; congruence. Qed.

Lemma alnum_orders (c : ascii) : (lower c || upper c || digit c) = alnum c.
Proof. unfold alnum. by destruct (lower c), (upper c), (digit c). Qed.

Lemma shortcodePattern_matches (l : list ascii) :
  matches shortcodePattern l ↔
  (3 ≤ length l ≤ 20)%nat ∧ Forall (λ c, alnum c = true) l.
Proof.
  unfold shortcodePattern. rewrite matches_repeat_range_class by lia.
  apply and_iff_compat_l. apply Forall_proper; [|done].
  intros c. by rewrite alnum_orders.
Qed.

Lemma spec_shortcodePattern_matches (l : list ascii) :
  matches spec_shortcodePattern l ↔
  (3 ≤ length l ≤ 20)%nat ∧ Forall (λ c, alnum c = true) l.
Proof.
  unfold spec_shortcodePattern. by rewrite matches_repeat_range_class by lia.
Qed.

Lemma validateShortcode_true (s : string) :
  validateShortcode s = true ↔
  (3 ≤ String.length s ≤ 20)%nat ∧
  Forall (λ c, alnum c = true) (list_ascii_of_string s).
Proof.
  unfold validateShortcode.
  by rewrite test_whole_matches, shortcodePattern_matches, length_list_ascii_of_string.
Qed.

(** C9. [validateShortcode s] is true exactly when [s] matches the
    specification's pattern [^[A-Za-z0-9]{3,20}$], that is when [s] has 3 to
    20 characters, all of them ASCII letters or digits; it is false exactly
    when the length is outside [3,20] or some character is not
    alphanumeric. *)
Theorem validateShortcode_spec (s : string) :
  (validateShortcode s = true ↔ matches spec_shortcodePattern (list_ascii_of_string s)) ∧
  (validateShortcode s = true ↔
     (3 ≤ String.length s ≤ 20)%nat ∧
     Forall (λ c, alnum c = true) (list_ascii_of_string s)) ∧
  (validateShortcode s = false ↔
     (String.length s < 3)%nat ∨ (20 < String.length s)%nat ∨
     Exists (λ c, alnum c = false) (list_ascii_of_string s)).
Proof.
  pose proof (validateShortcode_true s) as Hv.
  split; [|split].
  - by rewrite spec_shortcodePattern_matches, length_list_ascii_of_string.
  - done.
  - rewrite <- not_true_iff_false, Hv. split.
    + intros Hn.
      destruct (decide (String.length s < 3)%nat) as [|H3]; [by left|].
      destruct (decide (20 < String.length s)%nat) as [|H20]; [by right; left|].
      right; right.
      assert (Hnall : ¬ Forall (λ c, alnum c = true) (list_ascii_of_string s)).
      { intros Hall. apply Hn. split; [lia | done]. }
      apply not_Forall_Exists in Hnall; [|intros c; apply _].
      eapply Exists_impl; [exact Hnall|]. intros c Hc. by apply not_true_is_false.
    + intros [H|[H|H]] [Hl Hall]; [lia | lia |].
      apply Exists_exists in H as (c & Hin & Hc).
      rewrite Forall_forall in Hall. specialize (Hall c Hin). congruence.
Qed.

(** The strings [urlPattern] finds a match in: ["http://"] or ["https://"],
    then a character that is not a line terminator, then anything. *)
Lemma urlPattern_test (l : list ascii) :
  test_prefix urlPattern l = true ↔
  ∃ c rest,
    (l = list_ascii_of_string "http://" ++ c :: rest ∨
     l = list_ascii_of_string "https://" ++ c :: rest) ∧
    line_terminator c = false.
Proof.
  rewrite test_prefix_matches. unfold urlPattern, Plus, Dot. split.
  - intros (s1 & s2 & -> & H).
    apply matches_seq_inv in H as (a & t1 & -> & Ha%matches_lit & H).
    apply matches_seq_inv in H as (o & t2 & -> & Ho%matches_opt & H).
    apply matches_seq_inv in H as (c1 & t3 & -> & Hc1%matches_chr & H).
    apply matches_seq_inv in H as (c2 & t4 & -> & Hc2%matches_chr & H).
    apply matches_seq_inv in H as (c3 & t5 & -> & Hc3%matches_chr & H).
    apply matches_seq_inv in H as (d & t6 & -> & Hd%matches_class_inv & _).
    destruct Hd as (c & -> & Hc). apply negb_true_iff in Hc.
    subst a c1 c2 c3. exists c, (t6 ++ s2). split; [|done].
    destruct Ho as [->%matches_chr| ->]; simpl; rewrite <- ?app_assoc; auto.
  - intros (c & rest & Hl & Hc).
    assert (Hdot : matches (Seq (Class (λ c0, negb (line_terminator c0)))
                                (Star (Class (λ c0, negb (line_terminator c0))))) [c]).
    { apply (m_seq _ _ [c] []); [|constructor]. constructor. by rewrite Hc. }
    assert (Htail : matches
              (Seq (Chr ":") (Seq (Chr "/") (Seq (Chr "/")
                 (Seq (Class (λ c0, negb (line_terminator c0)))
                      (Star (Class (λ c0, negb (line_terminator c0))))))))
              (list_ascii_of_string "://" ++ [c])).
    { apply (m_seq _ _ [_] [_; _; _]); [by apply matches_chr|].
      apply (m_seq _ _ [_] [_; _]); [by apply matches_chr|].
      apply (m_seq _ _ [_] [_]); [by apply matches_chr | done]. }
    destruct Hl as [-> | ->].
    + exists (list_ascii_of_string "http://" ++ [c]), rest.
      split; [by rewrite <- app_assoc|].
      apply (m_seq _ _ (list_ascii_of_string "http") (list_ascii_of_string "://" ++ [c]));
        [by apply matches_lit|].
      apply (m_seq _ _ [] _); [|done]. apply matches_opt. by right.
    + exists (list_ascii_of_string "https://" ++ [c]), rest.
      split; [by rewrite <- app_assoc|].
      apply (m_seq _ _ (list_ascii_of_string "http")
                   (list_ascii_of_string "s" ++ list_ascii_of_string "://" ++ [c]));
        [by apply matches_lit|].
      apply (m_seq _ _ [_] _); [|done]. apply matches_opt. left. by apply matches_chr.
Qed.

Lemma list_ascii_of_string_inj (s t : string) :
  list_ascii_of_string s = list_ascii_of_string t → s = t.
Proof.
  intros H. rewrite <- (string_of_list_ascii_of_string s), H.
  apply string_of_list_ascii_of_string.
Qed.

Lemma list_ascii_of_string_app (s t : string) :
  list_ascii_of_string (s +:+ t) = list_ascii_of_string s ++ list_ascii_of_string t.
Proof. induction s as [|c s IH]; simpl; [done | by rewrite IH]. Qed.

(** C8, as the code has it.  [validateURL s] is true exactly when [s] begins
    with [http://] or [https://], the next character exists and is not a
    line terminator, and the URL constructor accepts [s]. *)
Theorem validateURL_spec (url_parses : string → bool) (s : string) :
  validateURL url_parses s = true ↔
  (∃ c rest,
     (s = "http://" +:+ String c rest ∨ s = "https://" +:+ String c rest) ∧
     line_terminator c = false) ∧
  url_parses s = true.
Proof.
  unfold validateURL.
  destruct (test_prefix urlPattern (list_ascii_of_string s)) eqn:Ht; simpl.
  - apply urlPattern_test in Ht as (c & rest & Hl & Hc).
    assert (Hs : ∃ c rest,
               (s = "http://" +:+ String c rest ∨ s = "https://" +:+ String c rest) ∧
               line_terminator c = false).
    { exists c, (string_of_list_ascii rest). split; [|done].
      destruct Hl as [Hl|Hl]; [left|right]; apply list_ascii_of_string_inj;
        rewrite Hl; simpl; by rewrite list_ascii_of_string_of_list_ascii. }
    destruct (url_parses s); split; try done. by intros [_ ?].
  - split; [done|]. intros [(c & rest & Hs & Hc) _].
    apply not_true_iff_false in Ht. destruct Ht. apply urlPattern_test.
    exists c, (list_ascii_of_string rest). split; [|done].
    destruct Hs as [-> | ->]; [left|right]; done.
Qed.

(** C8, as stated, fails.  The string [http://], a line feed, [example.com]
    begins with [http://], yet [validateURL] rejects it whatever the URL
    constructor says: [.] does not match the line feed.  So the stated
    equivalence does not hold for a constructor that accepts this string, as
    the browser's does (it strips line feeds before parsing). *)
Lemma validateURL_needs_more_than_scheme :
  let s := "http://" +:+ String "010" "example.com" in
  (String.prefix "http://" s = true ∧
   ∀ url_parses, validateURL url_parses s = false) ∧
  ¬ (∀ (url_parses : string → bool) (url : string),
       validateURL url_parses url = true ↔
       (String.prefix "http://" url = true ∨ String.prefix "https://" url = true) ∧
       url_parses url = true).
Proof.
  simpl. split; [split; [reflexivity | intros p; reflexivity]|].
  intros H.
  specialize (H (λ _, true) ("http://" +:+ String "010" "example.com")).
  destruct H as [_ H]. discriminate H. split; [by left | done].
Qed.

(** ** Persistence *)

Lemma Map_of_list_to_map {V : Type} (l : list (string * V)) :
  NoDup l.*1 → Map_of l = list_to_map l.
Proof.
  induction l as [|kv l IH] using rev_ind; [done|].
  intros Hnd. unfold Map_of in *. rewrite foldl_snoc.
  assert (Hnd' : NoDup (kv :: l).*1).
  { eapply NoDup_Permutation_proper; [|exact Hnd].
    apply fmap_Permutation. apply Permutation_cons_append. }
  rewrite IH by (by inversion Hnd').
  rewrite <- (list_to_map_proper (kv :: l) (l ++ [kv])); [|done|].
  - by destruct kv.
  - apply Permutation_cons_append.
Qed.

Lemma Map_of_json {V : Type} (f : V → V) (m : gmap string V) :
  Map_of (map (λ kv, (kv.1, f kv.2)) (map_to_list m)) = f <$> m.
Proof.
  assert (Heq : map (λ kv : (string * V)%type, (kv.1, f kv.2)) (map_to_list m)
                = prod_map Datatypes.id f <$> map_to_list m).
  { apply list_fmap_ext. by intros _ [k v] _. }
  rewrite Heq, Map_of_list_to_map.
  - by rewrite list_to_map_fmap, list_to_map_to_list.
  - rewrite <- list_fmap_compose.
    rewrite (list_fmap_ext (fst ∘ prod_map Datatypes.id f) fst (map_to_list m))
      by (by intros _ [k v] _).
    apply NoDup_fst_map_to_list.
Qed.

Lemma elem_of_Set_of (xs : list string) (x : string) : x ∈ Set_of xs ↔ x ∈ xs.
Proof.
  unfold Set_of. induction xs as [|y xs IH] using rev_ind.
  - simpl. set_solver.
  - rewrite foldl_snoc, elem_of_union, IH, elem_of_app, elem_of_singleton.
    rewrite list_elem_of_singleton. tauto.
Qed.

Lemma Set_of_elements (X : gset string) : Set_of (elements X) = X.
Proof. apply set_eq. intros x. by rewrite elem_of_Set_of, elem_of_elements. Qed.

Lemma boot_serialize (reg : Registry) :
  boot (Some (serialize reg)) = mkSystem (reloaded reg) (Some (serialize reg)).
Proof.
  unfold boot, loadFromStorage, serialize, reloaded. simpl.
  by rewrite !Map_of_json, Set_of_elements.
Qed.

Lemma service_saveToStorage (b : Browser) (s : System) :
  service (saveToStorage b s) = service s.
Proof. unfold saveToStorage. by destruct (storage_ok b). Qed.

Lemma localStorage_saveToStorage (b : Browser) (s : System) :
  localStorage (saveToStorage b s) =
  if storage_ok b then Some (serialize (service s)) else localStorage s.
Proof. unfold saveToStorage. by destruct (storage_ok b). Qed.

(** [save] then reload: keys, strings, numbers and the set of used
    shortcodes come back; every [Date] comes back as a string. *)
Lemma restart_saveToStorage (b : Browser) (s : System) :
  storage_ok b = true →
  service (restart (saveToStorage b s)) = reloaded (service s).
Proof.
  intros Hok. unfold restart. rewrite localStorage_saveToStorage, Hok.
  by rewrite boot_serialize.
Qed.

(** What the trip through JSON keeps of a timestamp: the instant. *)
Lemma instant_json_date (d : jsdate) : instant (json_date d) = instant d.
Proof. by destruct d. Qed.

Lemma json_date_idemp (d : jsdate) : json_date (json_date d) = json_date d.
Proof. by destruct d. Qed.

(** A restored timestamp never compares as passed, unless it is [null]. *)
Lemma date_gt_json_date (now_ms : Z) (d : jsdate) :
  date_gt now_ms (json_date d) = true → d = DateInvalid ∨ d = JsonNull.
Proof. destruct d; simpl; auto; discriminate. Qed.

Lemma getAllURLs_elem (s : System) (r : URLRecord) :
  r ∈ getAllURLs s ↔ ∃ code, urls (service s) !! code = Some r.
Proof.
  unfold getAllURLs. rewrite list_elem_of_fmap. split.
  - intros ([code r'] & -> & Hin). exists code. by apply elem_of_map_to_list.
  - intros (code & Hu). exists (code, r). split; [done|]. by apply elem_of_map_to_list.
Qed.

(** ** The invariant of the two maps *)

Lemma maps_ok_empty : maps_ok ∅ ∅.
Proof. intros code. by rewrite !lookup_empty. Qed.

Lemma maps_ok_insert u h code r :
  maps_ok u h → clicks r = [] → clickCount r = 0 →
  maps_ok (<[code := r]> u) (<[code := []]> h).
Proof.
  intros Hok Hc Hn code'. destruct (decide (code = code')) as [->|Hne].
  - rewrite !lookup_insert_eq. split; [done|]. unfold counts_clicks.
    by rewrite Hc, Hn.
  - rewrite !lookup_insert_ne by done. apply Hok.
Qed.

Lemma maps_ok_delete u h code :
  maps_ok u h → maps_ok (delete code u) (delete code h).
Proof.
  intros Hok code'. destruct (decide (code = code')) as [->|Hne].
  - by rewrite !lookup_delete_eq.
  - rewrite !lookup_delete_ne by done. apply Hok.
Qed.

Lemma maps_ok_click u h code r history click :
  maps_ok u h → u !! code = Some r → h !! code = Some history →
  maps_ok (<[code := clicked r click]> u) (<[code := history ++ [click]]> h).
Proof.
  intros Hok Hu Hh code'. destruct (decide (code = code')) as [->|Hne].
  - rewrite !lookup_insert_eq. specialize (Hok code'). rewrite Hu, Hh in Hok.
    destruct Hok as [Hc Hn]. unfold counts_clicks in *. simpl.
    rewrite length_app, Hc. split; [done|]. simpl. rewrite <- Hc. lia.
  - rewrite !lookup_insert_ne by done. apply Hok.
Qed.

Lemma maps_ok_json u h :
  maps_ok u h → maps_ok (json_record <$> u) (map json_click <$> h).
Proof.
  intros Hok code. specialize (Hok code). rewrite !lookup_fmap.
  destruct (u !! code) as [r|], (h !! code) as [history|]; simpl; try done.
  destruct Hok as [Hc Hn]. unfold counts_clicks in *. simpl.
  split; [by rewrite Hc | by rewrite length_map].
Qed.

Lemma maps_ok_history u h code r :
  maps_ok u h → u !! code = Some r → h !! code = Some (clicks r).
Proof.
  intros Hok Hu. specialize (Hok code). rewrite Hu in Hok.
  destruct (h !! code); [|done]. by destruct Hok as [-> _].
Qed.

Lemma sys_inv_save (b : Browser) (reg : Registry) (ls : option StoredData) :
  maps_ok (urls reg) (clickData reg) → disk_ok ls →
  sys_inv (saveToStorage b (mkSystem reg ls)).
Proof.
  intros Hreg Hls. unfold saveToStorage. destruct (storage_ok b); simpl.
  - split; [done|]. intros d [= <-]. eauto.
  - by split.
Qed.

Lemma sys_inv_initial : sys_inv initial.
Proof. split; [apply maps_ok_empty | by intros d]. Qed.

Lemma sys_inv_restart (s : System) : sys_inv s → sys_inv (restart s).
Proof.
  intros [_ Hls]. unfold restart. destruct (localStorage s) as [d|] eqn:Hd.
  - destruct (Hls d eq_refl) as (reg & -> & Hreg). rewrite boot_serialize.
    split; simpl; [by apply maps_ok_json|]. intros d [= <-]. eauto.
  - apply sys_inv_initial.
Qed.

Lemma generateShortcode_maps (b : Browser) (reg : Registry) :
  urls (generateShortcode b reg).2 = urls reg ∧
  clickData (generateShortcode b reg).2 = clickData reg.
Proof. unfold generateShortcode. by destruct (sample_loop _ _ _ _). Qed.

Lemma chooseShortcode_maps b custom reg code reg' :
  chooseShortcode b custom reg = inr (code, reg') →
  urls reg' = urls reg ∧ clickData reg' = clickData reg.
Proof.
  unfold chooseShortcode. intros H.
  assert (Hgen : inr (generateShortcode b reg) = inr (B:=string * Registry) (A:=string) (code, reg') →
                 urls reg' = urls reg ∧ clickData reg' = clickData reg).
  { intros [= Heq]. pose proof (generateShortcode_maps b reg) as Hm.
    by rewrite Heq in Hm. }
  destruct custom as [[|c rest]|]; [by apply Hgen| |by apply Hgen].
  destruct (validateShortcode _); [|done].
  destruct (isShortcodeAvailable _ _); [|done].
  by injection H as <- <-.
Qed.

Lemma sys_inv_create url_parses b url validity custom s :
  sys_inv s → sys_inv (createShortURL url_parses b url validity custom s).2.
Proof.
  intros [Hreg Hls]. unfold createShortURL.
  destruct (validateURL url_parses url); simpl; [|done].
  destruct (default (Integer 30) validity) as [minutes|]; [|done].
  destruct (minutes <=? 0); [done|].
  destruct (chooseShortcode b custom (service s)) as [e|[code reg]] eqn:Hch; [done|].
  apply chooseShortcode_maps in Hch as [Hu Hc].
  assert (Hinv : sys_inv (saveToStorage b (mkSystem
            (mkRegistry
               (<[code := mkURL (pretty (now_id b)) url code (origin b +:+ "/" +:+ code)
                     (DateObj (now_created b))
                     (new_Date (now_created b + minutes * 60 * 1000)) minutes 0 []]>
                  (urls reg))
               (<[code := []]> (clickData reg)) (shortcodeCounter reg)
               (usedShortcodes reg)) (localStorage s)))).
  { apply sys_inv_save; [|done]. simpl. rewrite Hu, Hc. by apply maps_ok_insert. }
  by destruct (new_Date _).
Qed.

Lemma sys_inv_click b code s : sys_inv s → sys_inv (recordClick b code s).2.
Proof.
  intros [Hreg Hls]. unfold recordClick.
  destruct (urls (service s) !! code) as [r|] eqn:Hu; [|done].
  rewrite (maps_ok_history _ _ _ _ Hreg Hu). simpl.
  apply sys_inv_save; [|done]. simpl.
  eapply maps_ok_click; [done..|]. by eapply maps_ok_history.
Qed.

Lemma sys_inv_resolve b code s : sys_inv s → sys_inv (getOriginalURL b code s).2.
Proof.
  intros Hinv. unfold getOriginalURL.
  destruct (urls (service s) !! code) as [r|]; [|done].
  destruct (date_gt _ _); [done|].
  pose proof (sys_inv_click b code s Hinv) as Hc.
  by destruct (recordClick b code s) as [[?|?] s'].
Qed.

Lemma cleanup_fold_maps_ok now_ms (l : list (string * URLRecord)) (reg : Registry) (n : Z) :
  maps_ok (urls reg) (clickData reg) →
  maps_ok (urls (foldl (cleanup_entry now_ms) (reg, n) l).1)
          (clickData (foldl (cleanup_entry now_ms) (reg, n) l).1).
Proof.
  revert reg n. induction l as [|[k r] l IH]; intros reg n Hok; [done|].
  simpl. destruct (date_gt now_ms (expiresAt r)); [|by apply IH].
  apply IH. simpl. by apply maps_ok_delete.
Qed.

Lemma service_cleanup (b : Browser) (s : System) :
  service (cleanupExpiredURLs b s) =
  (foldl (cleanup_entry (now_cleanup b)) (service s, 0)
         (map_to_list (urls (service s)))).1.
Proof.
  unfold cleanupExpiredURLs.
  destruct (foldl _ _ _) as [reg n]. simpl.
  destruct (0 <? n); [by rewrite service_saveToStorage | done].
Qed.

Lemma sys_inv_cleanup b s : sys_inv s → sys_inv (cleanupExpiredURLs b s).
Proof.
  intros [Hreg Hls].
  pose proof (cleanup_fold_maps_ok (now_cleanup b) (map_to_list (urls (service s)))
                                   (service s) 0 Hreg) as Hok.
  unfold cleanupExpiredURLs. destruct (foldl _ _ _) as [reg n]. simpl in Hok.
  destruct (0 <? n); [by apply sys_inv_save | by split].
Qed.

Lemma sys_inv_step url_parses s s' : step url_parses s s' → sys_inv s → sys_inv s'.
Proof.
  destruct 1; intros Hinv.
  - by apply sys_inv_create.
  - by apply sys_inv_resolve.
  - by apply sys_inv_click.
  - by apply sys_inv_cleanup.
  - destruct Hinv, s. by apply sys_inv_save.
  - by apply sys_inv_restart.
Qed.

Lemma reachable_inv url_parses s : reachable url_parses s → sys_inv s.
Proof.
  induction 1 as [|s s' _ IH Hstep]; [apply sys_inv_initial|].
  by eapply sys_inv_step.
Qed.

(** C7.  In every state the registry can reach from a fresh page (empty
    storage) by creating, resolving, recording clicks, cleaning up, saving
    and reloading, each record's [clickCount] equals the length of its
    [clicks]. *)
Theorem clickCount_is_length url_parses (s : System) (code : string) (r : URLRecord) :
  reachable url_parses s →
  urls (service s) !! code = Some r →
  clickCount r = Z.of_nat (length (clicks r)).
Proof.
  intros [Hok _]%reachable_inv Hu. specialize (Hok code). rewrite Hu in Hok.
  destruct (clickData (service s) !! code); [|done]. by destruct Hok.
Qed.

(** C10.  In every state the registry can reach from a fresh page, that is
    after every [createShortURL], [recordClick], [cleanupExpiredURLs] (and
    lookup, save or reload), a shortcode is a key of [urls] exactly when it
    is a key of [clickData], and the record's [clicks] is then the history
    kept in [clickData]. *)
Theorem stores_stay_in_sync url_parses (s : System) :
  reachable url_parses s →
  dom (urls (service s)) = dom (clickData (service s)) ∧
  ∀ code r, urls (service s) !! code = Some r →
            clickData (service s) !! code = Some (clicks r).
Proof.
  intros [Hok _]%reachable_inv. split.
  - apply set_eq. intros code. rewrite !elem_of_dom. specialize (Hok code).
    destruct (urls (service s) !! code), (clickData (service s) !! code);
      try done; split; intros [? ?]; done.
  - intros code r Hu. by eapply maps_ok_history.
Qed.

(** ** Generating a shortcode *)

Lemma sample_loop_unfold b used fuel attempts :
  sample_loop b used fuel attempts =
  if bool_decide (sample b attempts ∈ used) && (S attempts <? maxAttempts)%nat then
    match fuel with
    | O => (sample b attempts, S attempts)
    | S fuel' => sample_loop b used fuel' (S attempts)
    end
  else (sample b attempts, S attempts).
Proof. by destruct fuel. Qed.

(** The loop stops at the first attempt whose code is unused. *)
Lemma sample_loop_fresh b used fuel attempts :
  sample b attempts ∉ used →
  sample_loop b used fuel attempts = (sample b attempts, S attempts).
Proof.
  intros Hfresh. rewrite sample_loop_unfold.
  by rewrite (bool_decide_eq_false_2 _ Hfresh).
Qed.

Lemma sample_loop_collide b used fuel attempts :
  sample b attempts ∈ used → (S attempts < maxAttempts)%nat →
  sample_loop b used (S fuel) attempts = sample_loop b used fuel (S attempts).
Proof.
  intros Hin Hlt. rewrite sample_loop_unfold.
  rewrite (bool_decide_eq_true_2 _ Hin).
  by apply Nat.ltb_lt in Hlt as ->.
Qed.

(** The last attempt the loop allows ends it, whatever its code. *)
Lemma sample_loop_last b used fuel attempts :
  (maxAttempts ≤ S attempts)%nat →
  sample_loop b used fuel attempts = (sample b attempts, S attempts).
Proof.
  intros Hge. rewrite sample_loop_unfold.
  apply Nat.ltb_ge in Hge as ->. by rewrite andb_false_r.
Qed.

Lemma sample_loop_first_fresh b used fuel attempts k :
  (attempts ≤ k)%nat → (k < maxAttempts)%nat → (k - attempts ≤ fuel)%nat →
  (∀ a, (attempts ≤ a < k)%nat → sample b a ∈ used) →
  sample b k ∉ used →
  sample_loop b used fuel attempts = (sample b k, S k).
Proof.
  revert attempts. induction fuel as [|fuel IH]; intros attempts Hle Hk Hfuel Hall Hfresh.
  - assert (attempts = k) as -> by lia. by apply sample_loop_fresh.
  - destruct (decide (attempts = k)) as [->|Hne]; [by apply sample_loop_fresh|].
    rewrite sample_loop_collide; [|apply Hall; lia|lia].
    apply IH; [lia | done | lia | | done]. intros a Ha. apply Hall. lia.
Qed.

Lemma sample_loop_exhausted b used fuel attempts :
  (attempts < maxAttempts)%nat → (maxAttempts - 1 - attempts ≤ fuel)%nat →
  (∀ a, (attempts ≤ a < maxAttempts - 1)%nat → sample b a ∈ used) →
  sample_loop b used fuel attempts = (sample b (maxAttempts - 1), maxAttempts).
Proof.
  revert attempts. induction fuel as [|fuel IH]; intros attempts Hlt Hfuel Hall.
  - assert (attempts = maxAttempts - 1)%nat as -> by lia.
    by rewrite sample_loop_last.
  - destruct (decide (attempts = maxAttempts - 1)%nat) as [->|Hne].
    + by rewrite sample_loop_last.
    + rewrite sample_loop_collide; [|apply Hall; lia|lia].
      apply IH; [lia | lia |]. intros a Ha. apply Hall. lia.
Qed.

(** The loop never runs out of the fuel [generateShortcode] gives it: more
    fuel changes nothing. *)
Lemma sample_loop_fuel b used fuel attempts :
  (maxAttempts - 1 - attempts ≤ fuel)%nat →
  sample_loop b used fuel attempts =
  sample_loop b used (maxAttempts - 1 - attempts) attempts.
Proof.
  revert attempts. induction fuel as [|fuel IH]; intros attempts Hfuel.
  - by replace (maxAttempts - 1 - attempts)%nat with 0%nat by lia.
  - destruct (decide (maxAttempts ≤ S attempts)%nat) as [Hge|Hlt].
    + by rewrite !sample_loop_last.
    + destruct (decide (sample b attempts ∈ used)) as [Hin|Hout].
      * replace (maxAttempts - 1 - attempts)%nat
          with (S (maxAttempts - 1 - S attempts)) by lia.
        rewrite !sample_loop_collide by (done || lia). apply IH. lia.
      * by rewrite !sample_loop_fresh.
Qed.

Lemma generateShortcode_marks_used (b : Browser) (reg : Registry) :
  (generateShortcode b reg).1 ∈ usedShortcodes (generateShortcode b reg).2.
Proof.
  unfold generateShortcode. destruct (sample_loop _ _ _ _) as [sampled attempts].
  simpl. set_solver.
Qed.

Lemma generateShortcode_used (b : Browser) (reg : Registry) :
  usedShortcodes (generateShortcode b reg).2 =
  {[(generateShortcode b reg).1]} ∪ usedShortcodes reg.
Proof.
  unfold generateShortcode. by destruct (sample_loop _ _ _ _) as [sampled attempts].
Qed.

(** Attempt [k] (of the first 99) is returned when it is the first unused one. *)
Lemma generateShortcode_first_fresh (b : Browser) (reg : Registry) (k : nat) :
  (k < maxAttempts - 1)%nat →
  (∀ a, (a < k)%nat → sample b a ∈ usedShortcodes reg) →
  sample b k ∉ usedShortcodes reg →
  (generateShortcode b reg).1 = sample b k.
Proof.
  intros Hk Hall Hfresh. unfold generateShortcode.
  rewrite (sample_loop_first_fresh b _ maxAttempts 0 k);
    [|lia|lia|lia|intros a Ha; apply Hall; lia|done].
  assert (Hleb : (maxAttempts <=? S k)%nat = false) by (apply Nat.leb_gt; lia).
  cbv beta iota zeta. by rewrite Hleb.
Qed.

(** C6.  When the first 99 sampled codes are all in use, the generator
    returns ["url"] followed by the base-36 clock reading, whether or not the
    100th sampled code is in use: the 100th attempt is discarded even when it
    does not collide.  The code returned is added to the used set. *)
Theorem generateShortcode_discards_last_attempt (b : Browser) (reg : Registry) :
  (∀ a, (a < 99)%nat → sample b a ∈ usedShortcodes reg) →
  (generateShortcode b reg).1 = "url" +:+ toString36 (now_fallback b) ∧
  (generateShortcode b reg).1 ∈ usedShortcodes (generateShortcode b reg).2.
Proof.
  intros Hall. split; [|apply generateShortcode_marks_used].
  unfold generateShortcode.
  rewrite (sample_loop_exhausted b _ maxAttempts 0);
    [|unfold maxAttempts; lia|lia|].
  - done.
  - intros a Ha. apply Hall. unfold maxAttempts in Ha. lia.
Qed.

Lemma charAt_chars (i : nat) :
  (i < 62)%nat → ∃ c, charAt chars i = String c EmptyString ∧ alnum c = true.
Proof.
  intros Hi.
  do 62 (destruct i as [|i]; [eexists; split; reflexivity|]). lia.
Qed.

(** With draws in range, a sampled code has six alphanumeric characters. *)
Lemma sample_valid (b : Browser) (attempt : nat) :
  (∀ k, (random_index b k < 62)%nat) →
  String.length (sample b attempt) = 6%nat ∧ validateShortcode (sample b attempt) = true.
Proof.
  intros Hrange. unfold sample. cbn [foldl seq].
  destruct (charAt_chars _ (Hrange (6 * attempt + 0)%nat)) as (c0 & -> & H0).
  destruct (charAt_chars _ (Hrange (6 * attempt + 1)%nat)) as (c1 & -> & H1).
  destruct (charAt_chars _ (Hrange (6 * attempt + 2)%nat)) as (c2 & -> & H2).
  destruct (charAt_chars _ (Hrange (6 * attempt + 3)%nat)) as (c3 & -> & H3).
  destruct (charAt_chars _ (Hrange (6 * attempt + 4)%nat)) as (c4 & -> & H4).
  destruct (charAt_chars _ (Hrange (6 * attempt + 5)%nat)) as (c5 & -> & H5).
  split; [done|]. apply validateShortcode_true. split; [simpl; lia|].
  simpl. repeat constructor; done.
Qed.

(** ** Base 36 *)

(** [toString36] gives its loop enough fuel: one more unit changes nothing. *)
Lemma toString36_go_fuel (fuel : nat) (n : Z) (acc : string) :
  0 ≤ n → Z.log2 n ≤ Z.of_nat fuel →
  toString36_go (S fuel) n acc = toString36_go fuel n acc.
Proof.
  revert n acc. induction fuel as [|fuel IH]; intros n acc Hn Hlog.
  - assert (n < 2) as Hlt.
    { destruct (decide (n < 2)) as [|Hge]; [done|].
      assert (1 ≤ Z.log2 n) by (apply (Z.log2_le_pow2 n 1); lia). lia. }
    simpl. by replace (n <? 36) with true by (symmetry; apply Z.ltb_lt; lia).
  - change (toString36_go (S (S fuel)) n acc)
      with (if n <? 36 then charAt digits36 (Z.to_nat (n mod 36)) +:+ acc
            else toString36_go (S fuel) (n / 36)
                   (charAt digits36 (Z.to_nat (n mod 36)) +:+ acc)).
    change (toString36_go (S fuel) n acc)
      with (if n <? 36 then charAt digits36 (Z.to_nat (n mod 36)) +:+ acc
            else toString36_go fuel (n / 36)
                   (charAt digits36 (Z.to_nat (n mod 36)) +:+ acc)).
    destruct (n <? 36) eqn:Hlt; [done|]. apply Z.ltb_ge in Hlt.
    apply IH; [by apply Z.div_pos|].
    assert (0 < n / 36) as Hpos by (apply Z.div_str_pos; lia).
    assert (n < 2 ^ (Z.of_nat fuel + 2)) as Hn2 by (apply Z.log2_lt_pow2; lia).
    assert (n / 36 < 2 ^ (Z.of_nat fuel + 1)) as Hq.
    { apply Z.div_lt_upper_bound; [lia|].
      replace (Z.of_nat fuel + 2) with (Z.succ (Z.of_nat fuel + 1)) in Hn2 by lia.
      rewrite Z.pow_succ_r in Hn2 by lia. lia. }
    apply Z.log2_lt_pow2 in Hq; lia.
Qed.

Example toString36_clock : toString36 1700000000000 = "loyw3v28".
Proof. reflexivity. Qed.

Example toString36_small : toString36 35 = "z" ∧ toString36 36 = "10" ∧ toString36 0 = "0".
Proof. repeat split; reflexivity. Qed.

(** ** Creating a record *)

Lemma error_messages_distinct :
  NoDup [err_invalid_url; err_invalid_validity; err_invalid_shortcode;
         err_shortcode_taken; err_not_found; err_expired].
Proof. apply (bool_decide_unpack _). by vm_compute. Qed.

(** The four checks, in their order. *)
Lemma createShortURL_invalid_url url_parses b url validity custom s :
  validateURL url_parses url = false →
  createShortURL url_parses b url validity custom s =
  (Return (Failure err_invalid_url), s).
Proof. intros H. unfold createShortURL. by rewrite H. Qed.

Lemma createShortURL_invalid_validity url_parses b url validity custom s :
  validateURL url_parses url = true →
  (default (Integer 30) validity = NotInteger ∨
   ∃ minutes, default (Integer 30) validity = Integer minutes ∧ minutes ≤ 0) →
  createShortURL url_parses b url validity custom s =
  (Return (Failure err_invalid_validity), s).
Proof.
  intros Hurl Hv. unfold createShortURL. rewrite Hurl. simpl.
  destruct Hv as [-> | (minutes & -> & Hm)]; [done|].
  by apply Z.leb_le in Hm as ->.
Qed.

Lemma createShortURL_valid_inputs url_parses b url validity custom s minutes :
  validateURL url_parses url = true →
  default (Integer 30) validity = Integer minutes → 0 < minutes →
  createShortURL url_parses b url validity custom s =
  match chooseShortcode b custom (service s) with
  | inl error => (Return (Failure error), s)
  | inr (code, reg) =>
      (match new_Date (now_created b + minutes * 60 * 1000) with
       | DateInvalid => Throw "RangeError"
       | _ => Return (Success (new_record b url minutes code))
       end,
       stored_record b url minutes code reg (localStorage s))
  end.
Proof.
  intros Hurl Hv Hm. unfold createShortURL. rewrite Hurl, Hv. simpl.
  apply Z.leb_gt in Hm as ->.
  destruct (chooseShortcode _ _ _) as [e|[code reg]]; [done|].
  unfold stored_record, new_record. by destruct (new_Date _).
Qed.

Lemma chooseShortcode_invalid b custom reg :
  custom ≠ EmptyString → validateShortcode custom = false →
  chooseShortcode b (Some custom) reg = inl err_invalid_shortcode.
Proof. intros Hne Hv. destruct custom; [done|]. simpl. by rewrite Hv. Qed.

Lemma chooseShortcode_taken b custom reg :
  validateShortcode custom = true → custom ∈ usedShortcodes reg →
  chooseShortcode b (Some custom) reg = inl err_shortcode_taken.
Proof.
  intros Hv Hin. destruct custom; [done|]. simpl. rewrite Hv. simpl.
  unfold isShortcodeAvailable. by rewrite (bool_decide_eq_true_2 _ Hin).
Qed.

Lemma chooseShortcode_custom b custom reg :
  validateShortcode custom = true → custom ∉ usedShortcodes reg →
  chooseShortcode b (Some custom) reg = inr (custom, reg).
Proof.
  intros Hv Hout. destruct custom; [done|]. simpl. rewrite Hv. simpl.
  unfold isShortcodeAvailable. by rewrite (bool_decide_eq_false_2 _ Hout).
Qed.

Lemma chooseShortcode_custom_inv b custom reg code reg' :
  custom ≠ EmptyString →
  chooseShortcode b (Some custom) reg = inr (code, reg') →
  code = custom ∧ reg' = reg ∧ validateShortcode custom = true ∧
  custom ∉ usedShortcodes reg.
Proof.
  intros Hne H. destruct custom as [|c rest]; [done|]. simpl in H.
  destruct (validateShortcode (String c rest)) eqn:Hv; [|done]. simpl in H.
  unfold isShortcodeAvailable in H.
  destruct (bool_decide_reflect (String c rest ∈ usedShortcodes reg)); [done|].
  by injection H as <- <-.
Qed.

Lemma chooseShortcode_generated b custom reg :
  custom = None ∨ custom = Some EmptyString →
  chooseShortcode b custom reg = inr (generateShortcode b reg).
Proof. by intros [-> | ->]. Qed.

(** What a successful call did. *)
Lemma createShortURL_success_inv url_parses b url validity custom s r s' :
  createShortURL url_parses b url validity custom s = (Return (Success r), s') →
  ∃ minutes reg,
    validateURL url_parses url = true ∧
    default (Integer 30) validity = Integer minutes ∧ 0 < minutes ∧
    chooseShortcode b custom (service s) = inr (shortcode r, reg) ∧
    r = new_record b url minutes (shortcode r) ∧
    expiresAt r = DateObj (now_created b + minutes * 60 * 1000) ∧
    s' = stored_record b url minutes (shortcode r) reg (localStorage s).
Proof.
  intros H.
  destruct (validateURL url_parses url) eqn:Hurl;
    [|by rewrite createShortURL_invalid_url in H].
  destruct (default (Integer 30) validity) as [minutes|] eqn:Hv;
    [|by rewrite createShortURL_invalid_validity in H by auto].
  destruct (decide (0 < minutes)) as [Hm|Hm];
    [|rewrite createShortURL_invalid_validity in H; [done..|right; exists minutes; split; [done|lia]]].
  rewrite (createShortURL_valid_inputs _ _ _ _ _ _ minutes) in H by done.
  destruct (chooseShortcode _ _ _) as [e|[code reg]] eqn:Hch; [done|].
  exists minutes, reg.
  unfold new_Date in *.
  destruct (Z.abs _ <=? max_time) eqn:Hrange; [|done].
  injection H as <- <-. simpl. unfold new_record, new_Date. rewrite Hrange.
  done.
Qed.

(** The parts of the description of a successful call that hold for every
    call: the record is new, dated from the clock, and stored under its
    shortcode in both maps. *)
Lemma createShortURL_success_record url_parses b url validity custom s r s' :
  createShortURL url_parses b url validity custom s = (Return (Success r), s') →
  ∃ minutes,
    default (Integer 30) validity = Integer minutes ∧
    originalUrl r = url ∧
    createdAt r = DateObj (now_created b) ∧
    expiresAt r = DateObj (now_created b + minutes * 60 * 1000) ∧
    clickCount r = 0 ∧ clicks r = [] ∧
    urls (service s') !! shortcode r = Some r ∧
    clickData (service s') !! shortcode r = Some [].
Proof.
  intros (minutes & reg & _ & Hv & _ & _ & Hr & He & ->)%createShortURL_success_inv.
  exists minutes. unfold stored_record. rewrite service_saveToStorage. simpl.
  rewrite !lookup_insert_eq, <- Hr.
  repeat split; try done; by rewrite Hr.
Qed.

(** A generated shortcode is in the used set afterwards. *)
Lemma createShortURL_generated_marks_used url_parses b url validity custom s r s' :
  custom = None ∨ custom = Some EmptyString →
  createShortURL url_parses b url validity custom s = (Return (Success r), s') →
  shortcode r ∈ usedShortcodes (service s').
Proof.
  intros Hc (minutes & reg & _ & _ & _ & Hch & _ & _ & ->)%createShortURL_success_inv.
  rewrite chooseShortcode_generated in Hch by done. injection Hch as Hgen.
  unfold stored_record. rewrite service_saveToStorage. simpl.
  pose proof (generateShortcode_marks_used b (service s)) as Hin.
  by rewrite Hgen in Hin.
Qed.

(** C5.  A call that succeeds with a custom shortcode stores the record
    under that shortcode but leaves the used set as it was: the shortcode is
    not added to it. *)
Theorem createShortURL_custom_not_marked_used url_parses b url validity custom s r s' :
  createShortURL url_parses b url validity (Some custom) s = (Return (Success r), s') →
  custom ≠ EmptyString →
  shortcode r = custom ∧
  urls (service s') !! custom = Some r ∧
  clickCount r = 0 ∧ clicks r = [] ∧
  custom ∉ usedShortcodes (service s').
Proof.
  intros H Hne.
  pose proof (createShortURL_success_record _ _ _ _ _ _ _ _ H)
    as (_ & _ & _ & _ & _ & Hn & Hc & Hu & _).
  apply createShortURL_success_inv in H as (minutes & reg & _ & _ & _ & Hch & _ & _ & ->).
  apply chooseShortcode_custom_inv in Hch as (Hcode & -> & _ & Hout); [|done].
  rewrite Hcode in *. unfold stored_record in *.
  rewrite service_saveToStorage in *. simpl in *. done.
Qed.

(** C1.  After a call that succeeded with custom shortcode [custom], a
    second call with the same custom shortcode, a valid URL and a valid
    validity does not fail: it succeeds and replaces the record stored under
    [custom]. *)
Theorem createShortURL_custom_twice url_parses b1 b2 url1 url2 validity1 validity2
    minutes2 custom s r1 s1 :
  createShortURL url_parses b1 url1 validity1 (Some custom) s = (Return (Success r1), s1) →
  custom ≠ EmptyString →
  validateURL url_parses url2 = true →
  default (Integer 30) validity2 = Integer minutes2 → 0 < minutes2 →
  Z.abs (now_created b2 + minutes2 * 60 * 1000) ≤ max_time →
  urls (service s1) !! custom = Some r1 ∧
  ∃ r2 s2,
    createShortURL url_parses b2 url2 validity2 (Some custom) s1 = (Return (Success r2), s2) ∧
    originalUrl r2 = url2 ∧
    urls (service s2) !! custom = Some r2.
Proof.
  intros H Hne Hurl Hv Hm Hrange.
  pose proof (createShortURL_success_record _ _ _ _ _ _ _ _ H)
    as (_ & _ & _ & _ & _ & _ & _ & Hu & _).
  apply createShortURL_success_inv in H as (m1 & reg & _ & _ & _ & Hch & _ & _ & ->).
  apply chooseShortcode_custom_inv in Hch as (Hcode & -> & Hvalid & Hout); [|done].
  rewrite Hcode in *. split; [done|].
  rewrite (createShortURL_valid_inputs _ _ _ _ _ _ minutes2) by done.
  rewrite chooseShortcode_custom;
    [|done|by unfold stored_record; rewrite service_saveToStorage].
  unfold new_Date. apply Z.leb_le in Hrange as ->.
  eexists _, _. split; [reflexivity|]. split; [done|].
  unfold stored_record at 1. rewrite service_saveToStorage. simpl.
  by rewrite lookup_insert_eq.
Qed.

(** ** Resolving a shortcode *)

Lemma getOriginalURL_not_found b code s :
  urls (service s) !! code = None →
  getOriginalURL b code s = (Return (Failure err_not_found), s).
Proof. intros H. unfold getOriginalURL. by rewrite H. Qed.

Lemma getOriginalURL_expired b code s r :
  urls (service s) !! code = Some r →
  date_gt (now_lookup b) (expiresAt r) = true →
  getOriginalURL b code s = (Return (Failure err_expired), s).
Proof. intros Hu He. unfold getOriginalURL. by rewrite Hu, He. Qed.

(** A live record: one click is recorded in the record and in the history,
    and the updated record is returned. *)
Lemma getOriginalURL_live b code s r history :
  urls (service s) !! code = Some r →
  clickData (service s) !! code = Some history →
  date_gt (now_lookup b) (expiresAt r) = false →
  getOriginalURL b code s =
  (Return (Success (clicked r (click_of b))),
   saveToStorage b
     (mkSystem (mkRegistry (<[code := clicked r (click_of b)]> (urls (service s)))
                           (<[code := history ++ [click_of b]]> (clickData (service s)))
                           (shortcodeCounter (service s)) (usedShortcodes (service s)))
               (localStorage s))).
Proof.
  intros Hu Hh He. unfold getOriginalURL, recordClick. rewrite Hu, He, Hh.
  rewrite service_saveToStorage. simpl. by rewrite lookup_insert_eq.
Qed.

(** With the expiry held as a [Date]: expired strictly after it, live up to
    and including it. *)
Lemma getOriginalURL_date b code s r e :
  urls (service s) !! code = Some r →
  clickData (service s) !! code = Some (clicks r) →
  expiresAt r = DateObj e →
  (getOriginalURL b code s).1 =
  if e <? now_lookup b then Return (Failure err_expired)
  else Return (Success (clicked r (click_of b))).
Proof.
  intros Hu Hh He. destruct (e <? now_lookup b) eqn:Hlt.
  - rewrite (getOriginalURL_expired _ _ _ r); [done..|]. by rewrite He.
  - rewrite (getOriginalURL_live _ _ _ r (clicks r)); [done..|]. by rewrite He.
Qed.

(** Recording a click adds one to the count and one event at the end. *)
Lemma clicked_fields (r : URLRecord) (click : ClickEvent) :
  clickCount (clicked r click) = clickCount r + 1 ∧
  clicks (clicked r click) = clicks r ++ [click] ∧
  originalUrl (clicked r click) = originalUrl r ∧
  expiresAt (clicked r click) = expiresAt r.
Proof. done. Qed.

Lemma reachable_restart_save url_parses b s :
  reachable url_parses s → reachable url_parses (restart (saveToStorage b s)).
Proof.
  intros H. eapply reach_step; [eapply reach_step; [exact H|]|].
  - apply step_save.
  - apply step_restart.
Qed.

(** C3.  Saving and reloading does not give the record back as it was: a
    record whose expiry is a [Date] comes back with the expiry as a string,
    and the comparison [now > expiresAt] is then false for every [now]. *)
Theorem reload_turns_dates_into_strings (b : Browser) (s : System) (code : string)
    (r : URLRecord) (e : Z) :
  storage_ok b = true →
  urls (service s) !! code = Some r →
  expiresAt r = DateObj e →
  ∃ r', urls (service (restart (saveToStorage b s))) !! code = Some r' ∧
        r' ≠ r ∧
        expiresAt r' = IsoString e ∧
        ∀ now_ms, date_gt now_ms (expiresAt r') = false.
Proof.
  intros Hok Hu He. exists (json_record r).
  rewrite restart_saveToStorage by done. simpl. rewrite lookup_fmap, Hu. simpl.
  rewrite He. simpl. repeat split; try done.
  intros Heq. apply (f_equal expiresAt) in Heq. simpl in Heq.
  rewrite He in Heq. done.
Qed.

(** C4.  In a reachable state, take a record whose expiry [e] has passed:
    [getOriginalURL] answers that it has expired.  Save and reload the page:
    the same lookup at the same time now succeeds and records a click. *)
Theorem getOriginalURL_ignores_expiry_after_reload url_parses (b0 b : Browser)
    (s : System) (code : string) (r : URLRecord) (e : Z) :
  reachable url_parses s →
  storage_ok b0 = true →
  urls (service s) !! code = Some r →
  expiresAt r = DateObj e →
  e < now_lookup b →
  (getOriginalURL b code s).1 = Return (Failure err_expired) ∧
  reachable url_parses (restart (saveToStorage b0 s)) ∧
  ∃ r', (getOriginalURL b code (restart (saveToStorage b0 s))).1 = Return (Success r') ∧
        originalUrl r' = originalUrl r ∧
        instant (expiresAt r') = Some e ∧
        clickCount r' = clickCount r + 1.
Proof.
  intros Hreach Hok Hu He Hlt.
  pose proof (reachable_inv _ _ Hreach) as [Hmaps _].
  pose proof (maps_ok_history _ _ _ _ Hmaps Hu) as Hh.
  split; [|split; [by apply reachable_restart_save|]].
  - rewrite (getOriginalURL_date _ _ _ r e) by done.
    by apply Z.ltb_lt in Hlt as ->.
  - exists (clicked (json_record r) (click_of b)).
    rewrite (getOriginalURL_live _ _ _ (json_record r) (map json_click (clicks r))).
    + simpl. by rewrite He.
    + rewrite restart_saveToStorage by done. simpl. by rewrite lookup_fmap, Hu.
    + rewrite restart_saveToStorage by done. simpl. by rewrite lookup_fmap, Hh.
    + simpl. by rewrite He.
Qed.

(** ** Cleanup *)

(** The loop only deletes. *)
Lemma cleanup_fold_shrinks now_ms (l : list (string * URLRecord)) (reg : Registry) (n : Z)
    (code : string) :
  let reg' := (foldl (cleanup_entry now_ms) (reg, n) l).1 in
  (∀ r, urls reg' !! code = Some r → urls reg !! code = Some r) ∧
  (∀ h, clickData reg' !! code = Some h → clickData reg !! code = Some h) ∧
  (code ∈ usedShortcodes reg' → code ∈ usedShortcodes reg).
Proof.
  revert reg n. induction l as [|[k r0] l IH]; intros reg n; [done|].
  simpl. destruct (date_gt now_ms (expiresAt r0)); [|apply IH].
  destruct (IH (mkRegistry (delete k (urls reg)) (delete k (clickData reg))
                           (shortcodeCounter reg) (usedShortcodes reg ∖ {[k]}))
               (n + 1)) as (Hu & Hh & Hs).
  simpl in *. split; [|split].
  - intros r Hr. apply Hu in Hr. by apply lookup_delete_Some in Hr as [_ ?].
  - intros h Hr. apply Hh in Hr. by apply lookup_delete_Some in Hr as [_ ?].
  - intros Hin. apply Hs in Hin. by apply elem_of_difference in Hin as [? _].
Qed.

(** An entry the loop visits with its expiry passed is gone from all three
    stores. *)
Lemma cleanup_fold_removes now_ms (l : list (string * URLRecord)) (reg : Registry) (n : Z)
    (code : string) (r : URLRecord) :
  (code, r) ∈ l → date_gt now_ms (expiresAt r) = true →
  let reg' := (foldl (cleanup_entry now_ms) (reg, n) l).1 in
  urls reg' !! code = None ∧ clickData reg' !! code = None ∧
  code ∉ usedShortcodes reg'.
Proof.
  revert reg n. induction l as [|[k r0] l IH]; intros reg n Hin He.
  - by apply elem_of_nil in Hin.
  - apply elem_of_cons in Hin as [[= <- <-]|Hin];
      [|simpl; destruct (date_gt now_ms (expiresAt r0)); by apply IH].
    simpl. rewrite He.
    pose proof (cleanup_fold_shrinks now_ms l
                  (mkRegistry (delete code (urls reg)) (delete code (clickData reg))
                              (shortcodeCounter reg) (usedShortcodes reg ∖ {[code]}))
                  (n + 1) code) as (Hu & Hh & Hs).
    simpl in *. split; [|split].
    + apply eq_None_not_Some. intros [x Hx].
      apply Hu in Hx. by rewrite lookup_delete_eq in Hx.
    + apply eq_None_not_Some. intros [x Hx].
      apply Hh in Hx. by rewrite lookup_delete_eq in Hx.
    + intros Hc. apply Hs in Hc. apply elem_of_difference in Hc as [_ Hc].
      apply Hc. by apply elem_of_singleton.
Qed.

(** A shortcode the loop never visits with a passed expiry is untouched. *)
Lemma cleanup_fold_keeps now_ms (l : list (string * URLRecord)) (reg : Registry) (n : Z)
    (code : string) :
  (∀ r, (code, r) ∈ l → date_gt now_ms (expiresAt r) = false) →
  let reg' := (foldl (cleanup_entry now_ms) (reg, n) l).1 in
  urls reg' !! code = urls reg !! code ∧
  clickData reg' !! code = clickData reg !! code ∧
  (code ∈ usedShortcodes reg' ↔ code ∈ usedShortcodes reg).
Proof.
  revert reg n. induction l as [|[k r0] l IH]; intros reg n Hall; [done|].
  assert (Hl : ∀ r, (code, r) ∈ l → date_gt now_ms (expiresAt r) = false).
  { intros r Hr. apply Hall. by right. }
  simpl. destruct (date_gt now_ms (expiresAt r0)) eqn:He; [|by apply IH].
  assert (k ≠ code) as Hne.
  { intros ->. rewrite Hall in He; [done | by left]. }
  destruct (IH (mkRegistry (delete k (urls reg)) (delete k (clickData reg))
                           (shortcodeCounter reg) (usedShortcodes reg ∖ {[k]}))
               (n + 1) Hl) as (Hu & Hh & Hs).
  simpl in *. rewrite Hu, Hh, Hs, !lookup_delete_ne by done.
  split; [done|]. split; [done|].
  rewrite elem_of_difference, elem_of_singleton. split; [by intros [? _] | by split].
Qed.

Lemma isShortcodeAvailable_true reg code :
  isShortcodeAvailable reg code = true ↔ code ∉ usedShortcodes reg.
Proof.
  unfold isShortcodeAvailable. rewrite negb_true_iff. apply bool_decide_eq_false.
Qed.

(** A custom shortcode that is not in the used set is never refused as
    taken. *)
Lemma createShortURL_not_taken url_parses b url validity custom s :
  custom ∉ usedShortcodes (service s) →
  (createShortURL url_parses b url validity (Some custom) s).1 ≠
  Return (Failure err_shortcode_taken).
Proof.
  intros Hout. unfold createShortURL.
  destruct (validateURL url_parses url); [|done]. simpl.
  destruct (default (Integer 30) validity) as [minutes|]; [|done].
  destruct (minutes <=? 0); [done|].
  destruct custom as [|c rest].
  - simpl. destruct (generateShortcode b (service s)) as [code reg].
    by destruct (new_Date _).
  - simpl. destruct (validateShortcode (String c rest)); [|done]. simpl.
    apply isShortcodeAvailable_true in Hout as ->. simpl.
    by destruct (new_Date _).
Qed.

(** C2, as the code has it.  For a record whose expiry is held as a [Date]:
    if the expiry has passed, cleanup removes the record, its click history
    and its shortcode from the used set, so that a later [createShortURL]
    with this custom shortcode is not refused as taken; if it has not,
    the record and the used set's verdict on its shortcode are unchanged.
    Cleanup adds or changes no record. *)
Theorem cleanupExpiredURLs_releases (b : Browser) (s : System) (code : string)
    (r : URLRecord) (e : Z) :
  urls (service s) !! code = Some r →
  expiresAt r = DateObj e →
  let s' := cleanupExpiredURLs b s in
  (e < now_cleanup b →
     urls (service s') !! code = None ∧
     clickData (service s') !! code = None ∧
     (code ∉ usedShortcodes (service s')) ∧
     (∀ url_parses b' url validity,
        (createShortURL url_parses b' url validity (Some code) s').1 ≠
        Return (Failure err_shortcode_taken))) ∧
  (now_cleanup b ≤ e →
     urls (service s') !! code = Some r ∧
     clickData (service s') !! code = clickData (service s) !! code ∧
     (code ∈ usedShortcodes (service s') ↔ code ∈ usedShortcodes (service s))) ∧
  (∀ code' r', urls (service s') !! code' = Some r' →
               urls (service s) !! code' = Some r').
Proof.
  intros Hu He s'. subst s'. rewrite service_cleanup. split; [|split].
  - intros Hlt.
    destruct (cleanup_fold_removes (now_cleanup b) (map_to_list (urls (service s)))
                (service s) 0 code r) as (H1 & H2 & H3).
    { by apply elem_of_map_to_list. }
    { rewrite He. simpl. by apply Z.ltb_lt. }
    repeat split; try done. intros url_parses b' url validity.
    apply createShortURL_not_taken. by rewrite service_cleanup.
  - intros Hge.
    destruct (cleanup_fold_keeps (now_cleanup b) (map_to_list (urls (service s)))
                (service s) 0 code) as (H1 & H2 & H3).
    { intros r0 Hr0%elem_of_map_to_list. rewrite Hu in Hr0. injection Hr0 as <-.
      rewrite He. simpl. by apply Z.ltb_ge. }
    by rewrite H1, H2, H3.
  - intros code' r'.
    apply (cleanup_fold_shrinks (now_cleanup b) (map_to_list (urls (service s)))
             (service s) 0 code').
Qed.

(** ** Runs on concrete inputs *)

Lemma reachable_one_minute_link : reachable accept_all one_minute_link.
Proof. eapply reach_step; [apply reach_initial | apply step_create]. Defined.

Lemma createShortURL_custom_twice_witness :
  ∃ r1,
    custom_link.1 = Return (Success r1) ∧
    urls (service custom_link.2) !! "abc" = Some r1 ∧
    ∃ r2 s2,
      createShortURL accept_all (browser_at 5 (λ _, 0%nat)) "https://example.org"
                     None (Some "abc") custom_link.2 = (Return (Success r2), s2) ∧
      originalUrl r2 = "https://example.org" ∧
      urls (service s2) !! "abc" = Some r2.
Proof.
  eexists. split; [vm_compute; reflexivity|].
  eapply (createShortURL_custom_twice accept_all (browser_at 0 (λ _, 0%nat))
            (browser_at 5 (λ _, 0%nat)) "https://example.com" "https://example.org"
            None None 30 "abc" initial).
  - vm_compute. reflexivity.
  - done.
  - reflexivity.
  - reflexivity.
  - lia.
  - vm_compute. discriminate.
Defined.

Lemma createShortURL_custom_not_marked_used_witness :
  ∃ r,
    custom_link.1 = Return (Success r) ∧
    shortcode r = "abc" ∧
    urls (service custom_link.2) !! "abc" = Some r ∧
    clickCount r = 0 ∧ clicks r = [] ∧
    "abc" ∉ usedShortcodes (service custom_link.2).
Proof.
  eexists. split; [vm_compute; reflexivity|].
  eapply (createShortURL_custom_not_marked_used accept_all (browser_at 0 (λ _, 0%nat))
            "https://example.com" None "abc" initial).
  - vm_compute. reflexivity.
  - done.
Defined.

Lemma sample_collide_99_times (a : nat) :
  (a < 99)%nat → sample collide_99_times a = "AAAAAA".
Proof.
  intros Ha. unfold sample. cbn [foldl seq]. unfold collide_99_times, browser_at.
  cbn [random_index].
  repeat match goal with
         | |- context [(?k <? 594)%nat] =>
             replace (k <? 594)%nat with true by (symmetry; apply Nat.ltb_lt; lia)
         end.
  reflexivity.
Qed.

Lemma generateShortcode_discards_last_attempt_witness :
  let reg := mkRegistry ∅ ∅ 1 {["AAAAAA"]} in
  sample collide_99_times 99 = "BBBBBB" ∧
  ("BBBBBB" ∉ usedShortcodes reg) ∧
  (generateShortcode collide_99_times reg).1 = "urlloyw3v28" ∧
  (generateShortcode collide_99_times reg).1 ∈
    usedShortcodes (generateShortcode collide_99_times reg).2.
Proof.
  intros reg. split; [reflexivity|]. split.
  { intros H. simpl in H. apply elem_of_singleton in H. discriminate H. }
  apply (generateShortcode_discards_last_attempt collide_99_times reg).
  intros a Ha. rewrite sample_collide_99_times by done.
  simpl. apply elem_of_singleton. reflexivity.
Defined.

Lemma reload_turns_dates_into_strings_witness :
  ∃ r, urls (service one_minute_link) !! "AAAAAA" = Some r ∧
       expiresAt r = DateObj 60000 ∧
  ∃ r', urls (service (restart (saveToStorage (browser_at 0 (λ _, 0%nat)) one_minute_link)))
          !! "AAAAAA" = Some r' ∧
        r' ≠ r ∧
        expiresAt r' = IsoString 60000 ∧
        ∀ now_ms, date_gt now_ms (expiresAt r') = false.
Proof.
  eexists. split; [vm_compute; reflexivity|]. split; [reflexivity|].
  apply (reload_turns_dates_into_strings (browser_at 0 (λ _, 0%nat)) one_minute_link
           "AAAAAA" _ 60000); reflexivity.
Defined.

Lemma getOriginalURL_ignores_expiry_after_reload_witness :
  let later := browser_at 3600000 (λ _, 0%nat) in
  let reloaded_page := restart (saveToStorage (browser_at 0 (λ _, 0%nat)) one_minute_link) in
  ∃ r, urls (service one_minute_link) !! "AAAAAA" = Some r ∧
       expiresAt r = DateObj 60000 ∧
       (getOriginalURL later "AAAAAA" one_minute_link).1 = Return (Failure err_expired) ∧
       reachable accept_all reloaded_page ∧
  ∃ r', (getOriginalURL later "AAAAAA" reloaded_page).1 = Return (Success r') ∧
        originalUrl r' = originalUrl r ∧
        instant (expiresAt r') = Some 60000 ∧
        clickCount r' = clickCount r + 1.
Proof.
  intros later reloaded_page.
  eexists. split; [vm_compute; reflexivity|]. split; [reflexivity|].
  apply (getOriginalURL_ignores_expiry_after_reload accept_all (browser_at 0 (λ _, 0%nat))
           later one_minute_link "AAAAAA" _ 60000).
  - exact reachable_one_minute_link.
  - reflexivity.
  - vm_compute. reflexivity.
  - reflexivity.
  - reflexivity.
Defined.

(** C2, as stated, fails.  A record with the generated shortcode ["AAAAAA"]
    expires and is cleaned up: the shortcode leaves the used set, and a later
    call with ["AAAAAA"] as custom shortcode succeeds. *)
Lemma cleanupExpiredURLs_frees_shortcode :
  let later := browser_at 3600000 (λ _, 0%nat) in
  let cleaned := cleanupExpiredURLs later one_minute_link in
  "AAAAAA" ∈ usedShortcodes (service one_minute_link) ∧
  (expiresAt <$> urls (service one_minute_link) !! "AAAAAA") = Some (DateObj 60000) ∧
  urls (service cleaned) !! "AAAAAA" = None ∧
  ("AAAAAA" ∉ usedShortcodes (service cleaned)) ∧
  ∃ r, (createShortURL accept_all later "https://example.org" None (Some "AAAAAA") cleaned).1
       = Return (Success r) ∧
       shortcode r = "AAAAAA".
Proof.
  intros later cleaned. split; [|split; [|split; [|split]]].
  - vm_compute. reflexivity.
  - vm_compute. reflexivity.
  - vm_compute. reflexivity.
  - intros H. vm_compute in H. discriminate H.
  - eexists. split; [vm_compute; reflexivity | reflexivity].
Qed.

Lemma cleanupExpiredURLs_releases_witness :
  let later := browser_at 3600000 (λ _, 0%nat) in
  let s' := cleanupExpiredURLs later one_minute_link in
  ∃ r, urls (service one_minute_link) !! "AAAAAA" = Some r ∧
       expiresAt r = DateObj 60000 ∧
  (60000 < now_cleanup later →
     urls (service s') !! "AAAAAA" = None ∧
     clickData (service s') !! "AAAAAA" = None ∧
     ("AAAAAA" ∉ usedShortcodes (service s')) ∧
     (∀ url_parses b' url validity,
        (createShortURL url_parses b' url validity (Some "AAAAAA") s').1 ≠
        Return (Failure err_shortcode_taken))) ∧
  (now_cleanup later ≤ 60000 →
     urls (service s') !! "AAAAAA" = Some r ∧
     clickData (service s') !! "AAAAAA" = clickData (service one_minute_link) !! "AAAAAA" ∧
     ("AAAAAA" ∈ usedShortcodes (service s') ↔
      "AAAAAA" ∈ usedShortcodes (service one_minute_link))) ∧
  (∀ code' r', urls (service s') !! code' = Some r' →
               urls (service one_minute_link) !! code' = Some r').
Proof.
  intros later s'.
  eexists. split; [vm_compute; reflexivity|]. split; [reflexivity|].
  apply (cleanupExpiredURLs_releases later one_minute_link "AAAAAA" _ 60000).
  - vm_compute. reflexivity.
  - reflexivity.
Defined.

Lemma reachable_resolved_once : reachable accept_all resolved_once.
Proof.
  eapply reach_step; [exact reachable_one_minute_link | apply step_resolve].
Defined.

Lemma clickCount_is_length_witness :
  reachable accept_all resolved_once ∧
  ∃ r, urls (service resolved_once) !! "AAAAAA" = Some r ∧
       clickCount r = 1 ∧
       clickCount r = Z.of_nat (length (clicks r)).
Proof.
  split; [exact reachable_resolved_once|].
  eexists. split; [vm_compute; reflexivity|]. split; [reflexivity|].
  apply (clickCount_is_length accept_all resolved_once "AAAAAA").
  - exact reachable_resolved_once.
  - vm_compute. reflexivity.
Defined.

Lemma stores_stay_in_sync_witness :
  reachable accept_all resolved_once ∧
  dom (urls (service resolved_once)) = dom (clickData (service resolved_once)) ∧
  ∀ code r, urls (service resolved_once) !! code = Some r →
            clickData (service resolved_once) !! code = Some (clicks r).
Proof.
  split; [exact reachable_resolved_once|].
  apply (stores_stay_in_sync accept_all resolved_once).
  exact reachable_resolved_once.
Defined.

(** * Further properties of the service *)

(** ** Calls that fail *)

Lemma chooseShortcode_error b custom reg error :
  chooseShortcode b custom reg = inl error →
  error = err_invalid_shortcode ∨ error = err_shortcode_taken.
Proof.
  destruct custom as [[|c rest]|]; simpl; try done.
  destruct (validateShortcode _); simpl; [|intros [= <-]; by left].
  destruct (isShortcodeAvailable _ _); simpl; [done|]. intros [= <-]. by right.
Qed.

(** X1.  A call to [createShortURL] that returns a failure leaves the
    registry and the storage exactly as they were, and its error is one of
    the four validation messages. *)
Theorem createShortURL_failure_unchanged url_parses b url validity custom s error s' :
  createShortURL url_parses b url validity custom s = (Return (Failure error), s') →
  s' = s ∧
  error ∈ [err_invalid_url; err_invalid_validity; err_invalid_shortcode;
           err_shortcode_taken].
Proof.
  unfold createShortURL.
  destruct (validateURL url_parses url); simpl;
    [|intros [= <- <-]; split; [done | set_solver]].
  destruct (default (Integer 30) validity) as [minutes|];
    [|intros [= <- <-]; split; [done | set_solver]].
  destruct (minutes <=? 0); [intros [= <- <-]; split; [done | set_solver]|].
  destruct (chooseShortcode b custom (service s)) as [e|[code reg]] eqn:Hch.
  - intros [= <- <-]. split; [done|].
    apply chooseShortcode_error in Hch as [-> | ->]; set_solver.
  - by destruct (new_Date _).
Qed.

Lemma createShortURL_failure_unchanged_witness :
  createShortURL accept_all (browser_at 0 (λ _, 0%nat)) "ftp://example.com" None None
                 one_minute_link
  = (Return (Failure err_invalid_url), one_minute_link) ∧
  one_minute_link = one_minute_link ∧
  err_invalid_url ∈ [err_invalid_url; err_invalid_validity; err_invalid_shortcode;
                     err_shortcode_taken].
Proof.
  assert (H : createShortURL accept_all (browser_at 0 (λ _, 0%nat)) "ftp://example.com"
                None None one_minute_link
              = (Return (Failure err_invalid_url), one_minute_link)) by reflexivity.
  split; [exact H|].
  exact (createShortURL_failure_unchanged _ _ _ _ _ _ _ _ H).
Defined.

(** X6.  A lookup that fails, as not found or as expired, changes nothing:
    no click is recorded and nothing is saved. *)
Theorem getOriginalURL_failure_unchanged b code s error s' :
  getOriginalURL b code s = (Return (Failure error), s') →
  s' = s ∧ (error = err_not_found ∨ error = err_expired).
Proof.
  unfold getOriginalURL.
  destruct (urls (service s) !! code) as [r|]; [|intros [= <- <-]; auto].
  destruct (date_gt _ _); [intros [= <- <-]; auto|].
  by destruct (recordClick b code s) as [[[]|exn] s1].
Qed.

Lemma getOriginalURL_failure_unchanged_witness :
  getOriginalURL (browser_at 3600000 (λ _, 0%nat)) "AAAAAA" one_minute_link
  = (Return (Failure err_expired), one_minute_link) ∧
  one_minute_link = one_minute_link ∧
  (err_expired = err_not_found ∨ err_expired = err_expired).
Proof.
  assert (H : getOriginalURL (browser_at 3600000 (λ _, 0%nat)) "AAAAAA" one_minute_link
              = (Return (Failure err_expired), one_minute_link))
    by (vm_compute; reflexivity).
  split; [exact H|].
  exact (getOriginalURL_failure_unchanged _ _ _ _ _ H).
Defined.

(** ** Generated shortcodes *)

(** When the loop ends before the last attempt, it ends on an unused code. *)
Lemma sample_loop_result b used fuel attempts :
  (attempts < maxAttempts)%nat → (maxAttempts - 1 - attempts ≤ fuel)%nat →
  ∃ k, (attempts ≤ k < maxAttempts)%nat ∧
       sample_loop b used fuel attempts = (sample b k, S k) ∧
       (∀ a, (attempts ≤ a < k)%nat → sample b a ∈ used) ∧
       ((S k < maxAttempts)%nat → sample b k ∉ used).
Proof.
  revert attempts. induction fuel as [|fuel IH]; intros attempts Hlt Hfuel.
  - exists attempts. rewrite sample_loop_last by lia.
    split; [lia|]. split; [done|]. split; intros; lia.
  - destruct (decide (maxAttempts ≤ S attempts)%nat) as [Hge|Hlt'].
    { exists attempts. rewrite sample_loop_last by lia.
      split; [lia|]. split; [done|]. split; intros; lia. }
    destruct (decide (sample b attempts ∈ used)) as [Hin|Hout].
    + rewrite sample_loop_collide by (done || lia).
      destruct (IH (S attempts)) as (k & Hk & Hrun & Hall & Hfresh); [lia..|].
      exists k. split; [lia|]. split; [done|]. split; [|done].
      intros a Ha. destruct (decide (a = attempts)) as [->|Hne]; [done|].
      apply Hall. lia.
    + exists attempts. rewrite sample_loop_fresh by done.
      split; [lia|]. split; [done|]. split; [intros; lia | done].
Qed.

(** What [generateShortcode] returns: the first unused code among the first
    99 samples, or else the fallback. *)
Lemma generateShortcode_cases (b : Browser) (reg : Registry) :
  (∃ k, (k < maxAttempts - 1)%nat ∧
        (generateShortcode b reg).1 = sample b k ∧
        (sample b k ∉ usedShortcodes reg) ∧
        ∀ a, (a < k)%nat → sample b a ∈ usedShortcodes reg) ∨
  ((generateShortcode b reg).1 = "url" +:+ toString36 (now_fallback b) ∧
   ∀ a, (a < maxAttempts - 1)%nat → sample b a ∈ usedShortcodes reg).
Proof.
  destruct (sample_loop_result b (usedShortcodes reg) maxAttempts 0)
    as (k & Hk & Hrun & Hall & Hfresh).
  { unfold maxAttempts. lia. }
  { unfold maxAttempts. lia. }
  unfold generateShortcode. rewrite Hrun. cbv beta iota zeta.
  destruct (decide (S k < maxAttempts)%nat) as [Hlt|Hge].
  - left. exists k. split; [lia|].
    assert (Hleb : (maxAttempts <=? S k)%nat = false) by (by apply Nat.leb_gt).
    rewrite Hleb. simpl. split; [done|]. split; [by apply Hfresh|].
    intros a Ha. apply Hall. lia.
  - right.
    assert (Hleb : (maxAttempts <=? S k)%nat = true).
    { apply Nat.leb_le. apply Nat.nlt_ge. exact Hge. }
    rewrite Hleb. simpl. split; [done|]. intros a Ha. apply Hall.
    unfold maxAttempts in *. lia.
Qed.

(** X3.  [generateShortcode] never returns a sampled code that is already in
    the used set: its result is either absent from the set it was given, or
    the timestamp fallback (taken only when the first 99 samples are all in
    use). *)
Theorem generateShortcode_fresh_or_fallback (b : Browser) (reg : Registry) :
  (generateShortcode b reg).1 ∉ usedShortcodes reg ∨
  ((generateShortcode b reg).1 = "url" +:+ toString36 (now_fallback b) ∧
   ∀ a, (a < 99)%nat → sample b a ∈ usedShortcodes reg).
Proof.
  destruct (generateShortcode_cases b reg) as [(k & _ & -> & Hfresh & _)|[Hfb Hall]].
  - by left.
  - right. split; [done|]. intros a Ha. apply Hall. unfold maxAttempts. lia.
Qed.

Lemma charAt_digits36 (i : nat) :
  (i < 36)%nat → ∃ c, charAt digits36 i = String c EmptyString ∧ alnum c = true.
Proof.
  intros Hi.
  do 36 (destruct i as [|i]; [eexists; split; reflexivity|]). lia.
Qed.

(** The digits [toString36_go] writes: alphanumeric, and no more of them than
    the size of the number allows. *)
Lemma toString36_go_digits (fuel : nat) (n : Z) (acc : string) (k : nat) :
  0 ≤ n < 36 ^ Z.of_nat k → (1 ≤ k)%nat →
  ∃ ds, list_ascii_of_string (toString36_go fuel n acc) = ds ++ list_ascii_of_string acc ∧
        (1 ≤ length ds ≤ k)%nat ∧ Forall (λ c, alnum c = true) ds.
Proof.
  revert n acc k. induction fuel as [|fuel IH]; intros n acc k Hn Hk.
  - simpl.
    destruct (charAt_digits36 (Z.to_nat (n mod 36))) as (c & -> & Hc).
    { pose proof (Z.mod_pos_bound n 36). lia. }
    exists [c]. simpl. repeat split; [lia | lia | by constructor].
  - change (toString36_go (S fuel) n acc)
      with (if n <? 36 then charAt digits36 (Z.to_nat (n mod 36)) +:+ acc
            else toString36_go fuel (n / 36)
                   (charAt digits36 (Z.to_nat (n mod 36)) +:+ acc)).
    destruct (charAt_digits36 (Z.to_nat (n mod 36))) as (c & -> & Hc).
    { pose proof (Z.mod_pos_bound n 36). lia. }
    destruct (n <? 36) eqn:Hlt.
    + exists [c]. simpl. repeat split; [lia | lia | by constructor].
    + apply Z.ltb_ge in Hlt.
      destruct k as [|[|k]]; [lia| simpl in Hn; lia |].
      destruct (IH (n / 36) (String c EmptyString +:+ acc) (S k)) as (ds & Hds & Hlen & Hall).
      { split; [apply Z.div_pos; lia|]. apply Z.div_lt_upper_bound; [lia|].
        replace (Z.of_nat (S (S k))) with (Z.succ (Z.of_nat (S k))) in Hn by lia.
        rewrite Z.pow_succ_r in Hn by lia. lia. }
      { lia. }
      exists (ds ++ [c]). rewrite Hds. simpl.
      rewrite <- app_assoc. split; [done|]. rewrite length_app. simpl.
      split; [lia|]. apply Forall_app. split; [done | by constructor].
Qed.

Lemma fallback_valid (now_ms : Z) :
  0 ≤ now_ms ≤ max_time → validateShortcode ("url" +:+ toString36 now_ms) = true.
Proof.
  intros Hnow. unfold toString36.
  replace (now_ms <? 0) with false by (symmetry; apply Z.ltb_ge; lia).
  destruct (toString36_go_digits (Z.to_nat (Z.log2 now_ms)) now_ms EmptyString 11)
    as (ds & Hds & Hlen & Hall).
  { unfold max_time in Hnow. split; [lia|]. change (36 ^ Z.of_nat 11) with 131621703842267136. lia. }
  { lia. }
  apply validateShortcode_true. rewrite <- length_list_ascii_of_string.
  rewrite list_ascii_of_string_app, Hds. simpl. rewrite app_nil_r.
  split; [lia|]. repeat constructor; done.
Qed.

(** X4.  With random draws in range and a clock reading that is a valid,
    non-negative time value, whatever [generateShortcode] returns, sampled
    or fallback, passes [validateShortcode]. *)
Theorem generateShortcode_valid (b : Browser) (reg : Registry) :
  (∀ k, (random_index b k < 62)%nat) →
  0 ≤ now_fallback b ≤ max_time →
  validateShortcode (generateShortcode b reg).1 = true.
Proof.
  intros Hdraws Hnow.
  destruct (generateShortcode_cases b reg) as [(k & _ & -> & _)|[-> _]].
  - by apply sample_valid.
  - by apply fallback_valid.
Qed.

Lemma generateShortcode_valid_witness :
  let reg := mkRegistry ∅ ∅ 1 {["AAAAAA"]} in
  (∀ k, (random_index collide_99_times k < 62)%nat) ∧
  0 ≤ now_fallback collide_99_times ≤ max_time ∧
  validateShortcode (generateShortcode collide_99_times reg).1 = true.
Proof.
  intros reg.
  assert (Hdraws : ∀ k, (random_index collide_99_times k < 62)%nat).
  { intros k. simpl. destruct (k <? 594)%nat; lia. }
  assert (Hnow : 0 ≤ now_fallback collide_99_times ≤ max_time)
    by (unfold max_time; simpl; lia).
  split; [exact Hdraws|]. split; [exact Hnow|].
  exact (generateShortcode_valid collide_99_times reg Hdraws Hnow).
Defined.

Lemma createShortURL_generated_inv url_parses b url validity custom s r s' :
  custom = None ∨ custom = Some EmptyString →
  createShortURL url_parses b url validity custom s = (Return (Success r), s') →
  shortcode r = (generateShortcode b (service s)).1 ∧
  usedShortcodes (service s') = {[shortcode r]} ∪ usedShortcodes (service s).
Proof.
  intros Hc (minutes & reg & _ & _ & _ & Hch & _ & _ & ->)%createShortURL_success_inv.
  rewrite chooseShortcode_generated in Hch by done. injection Hch as Hgen.
  unfold stored_record. rewrite service_saveToStorage. simpl.
  pose proof (generateShortcode_used b (service s)) as Hused.
  rewrite Hgen in Hused. simpl in Hused. by rewrite Hgen.
Qed.

(** X5.  Two links created one after the other, both with generated
    shortcodes, get different shortcodes, unless the second call had to fall
    back to the timestamp code. *)
Theorem createShortURL_generated_distinct url_parses b1 b2 url1 url2 validity1 validity2
    s r1 s1 r2 s2 :
  createShortURL url_parses b1 url1 validity1 None s = (Return (Success r1), s1) →
  createShortURL url_parses b2 url2 validity2 None s1 = (Return (Success r2), s2) →
  shortcode r2 ≠ shortcode r1 ∨
  shortcode r2 = "url" +:+ toString36 (now_fallback b2).
Proof.
  intros [_ Hused1]%createShortURL_generated_inv [Hcode2 _]%createShortURL_generated_inv;
    [|by left..].
  destruct (generateShortcode_cases b2 (service s1)) as [(k & _ & Hk & Hfresh & _)|[Hfb _]].
  - left. rewrite Hcode2, Hk. intros Heq. apply Hfresh. rewrite Hused1, Heq.
    apply elem_of_union_l. by apply elem_of_singleton.
  - right. by rewrite Hcode2.
Qed.

Lemma createShortURL_generated_distinct_witness :
  ∃ r1 s1 r2 s2,
    createShortURL accept_all (browser_at 0 (λ _, 0%nat)) "https://example.com"
                   None None initial = (Return (Success r1), s1) ∧
    createShortURL accept_all collide_once "https://example.org" None None s1
      = (Return (Success r2), s2) ∧
    shortcode r1 = "AAAAAA" ∧ shortcode r2 = "BBBBBB" ∧
    (shortcode r2 ≠ shortcode r1 ∨
     shortcode r2 = "url" +:+ toString36 (now_fallback collide_once)).
Proof.
  eexists _, _, _, _.
  split; [vm_compute; reflexivity|].
  split; [vm_compute; reflexivity|].
  split; [reflexivity|]. split; [reflexivity|].
  eapply (createShortURL_generated_distinct accept_all (browser_at 0 (λ _, 0%nat))
            collide_once "https://example.com" "https://example.org" None None initial).
  - vm_compute. reflexivity.
  - vm_compute. reflexivity.
Defined.

(** ** Calls that succeed *)

(** X2.  Without a custom shortcode, a valid URL and a positive whole number
    of minutes (with the expiry inside the range of [Date]) always give a
    success: the record carries the URL and the generated shortcode, is
    stored under that shortcode, the shortcode is in the used set, and when
    the storage accepts the write it holds the new state. *)
Theorem createShortURL_generated_succeeds url_parses b url validity minutes s :
  validateURL url_parses url = true →
  default (Integer 30) validity = Integer minutes → 0 < minutes →
  Z.abs (now_created b + minutes * 60 * 1000) ≤ max_time →
  ∃ r s',
    createShortURL url_parses b url validity None s = (Return (Success r), s') ∧
    originalUrl r = url ∧
    shortcode r = (generateShortcode b (service s)).1 ∧
    expiresAt r = DateObj (now_created b + minutes * 60 * 1000) ∧
    urls (service s') !! shortcode r = Some r ∧
    shortcode r ∈ usedShortcodes (service s') ∧
    localStorage s' =
      (if storage_ok b then Some (serialize (service s')) else localStorage s).
Proof.
  intros Hurl Hv Hm Hrange.
  rewrite (createShortURL_valid_inputs _ _ _ _ _ _ minutes) by done.
  simpl. destruct (generateShortcode b (service s)) as [code reg] eqn:Hgen.
  pose proof (generateShortcode_marks_used b (service s)) as Hin.
  rewrite Hgen in Hin. simpl in Hin.
  unfold new_Date. apply Z.leb_le in Hrange as Hrange'. rewrite Hrange'.
  eexists _, _. split; [reflexivity|].
  unfold stored_record. rewrite service_saveToStorage, localStorage_saveToStorage.
  simpl. rewrite lookup_insert_eq. unfold new_Date. rewrite Hrange'.
  repeat split; try done.
Qed.

Lemma createShortURL_generated_succeeds_witness :
  ∃ r s',
    createShortURL accept_all (browser_at 0 (λ _, 0%nat)) "https://example.com"
                   (Some (Integer 1)) None initial = (Return (Success r), s') ∧
    originalUrl r = "https://example.com" ∧
    shortcode r = (generateShortcode (browser_at 0 (λ _, 0%nat)) (service initial)).1 ∧
    expiresAt r = DateObj (0 + 1 * 60 * 1000) ∧
    urls (service s') !! shortcode r = Some r ∧
    shortcode r ∈ usedShortcodes (service s') ∧
    localStorage s' = Some (serialize (service s')).
Proof.
  apply (createShortURL_generated_succeeds accept_all (browser_at 0 (λ _, 0%nat))
           "https://example.com" (Some (Integer 1)) 1 initial).
  - reflexivity.
  - reflexivity.
  - lia.
  - vm_compute. discriminate.
Defined.

Lemma getOriginalURL_success_inv b code s r' s' :
  getOriginalURL b code s = (Return (Success r'), s') →
  ∃ r history,
    urls (service s) !! code = Some r ∧
    clickData (service s) !! code = Some history ∧
    date_gt (now_lookup b) (expiresAt r) = false ∧
    r' = clicked r (click_of b) ∧
    s' = saveToStorage b
           (mkSystem (mkRegistry (<[code := clicked r (click_of b)]> (urls (service s)))
                                 (<[code := history ++ [click_of b]]> (clickData (service s)))
                                 (shortcodeCounter (service s)) (usedShortcodes (service s)))
                     (localStorage s)).
Proof.
  intros H.
  destruct (urls (service s) !! code) as [r|] eqn:Hu;
    [|by rewrite getOriginalURL_not_found in H].
  destruct (date_gt (now_lookup b) (expiresAt r)) eqn:He;
    [by rewrite (getOriginalURL_expired _ _ _ r) in H|].
  destruct (clickData (service s) !! code) as [history|] eqn:Hh.
  - rewrite (getOriginalURL_live _ _ _ r history) in H by done.
    injection H as <- <-. by exists r, history.
  - unfold getOriginalURL, recordClick in H. by rewrite Hu, He, Hh in H.
Qed.

(** X7.  A lookup that succeeds changes exactly one thing in each map: the
    record under the shortcode gets one more click (count and list), its
    history gets the same event, and the record returned is the updated one.
    Every other record and history, and the used set, are untouched. *)
Theorem getOriginalURL_success_effects b code s r' s' :
  getOriginalURL b code s = (Return (Success r'), s') →
  ∃ r history,
    urls (service s) !! code = Some r ∧
    clickData (service s) !! code = Some history ∧
    clickCount r' = clickCount r + 1 ∧
    clicks r' = clicks r ++ [click_of b] ∧
    originalUrl r' = originalUrl r ∧
    urls (service s') = <[code := r']> (urls (service s)) ∧
    clickData (service s') = <[code := history ++ [click_of b]]> (clickData (service s)) ∧
    usedShortcodes (service s') = usedShortcodes (service s).
Proof.
  intros (r & history & Hu & Hh & _ & -> & ->)%getOriginalURL_success_inv.
  exists r, history. rewrite service_saveToStorage. simpl. done.
Qed.

Lemma getOriginalURL_success_effects_witness :
  ∃ r' s',
    getOriginalURL (browser_at 30000 (λ _, 0%nat)) "AAAAAA" one_minute_link
      = (Return (Success r'), s') ∧
    ∃ r history,
      urls (service one_minute_link) !! "AAAAAA" = Some r ∧
      clickData (service one_minute_link) !! "AAAAAA" = Some history ∧
      clickCount r' = clickCount r + 1 ∧
      clicks r' = clicks r ++ [click_of (browser_at 30000 (λ _, 0%nat))] ∧
      originalUrl r' = originalUrl r ∧
      urls (service s') = <[ "AAAAAA" := r']> (urls (service one_minute_link)) ∧
      clickData (service s')
        = <[ "AAAAAA" := history ++ [click_of (browser_at 30000 (λ _, 0%nat))]]>
            (clickData (service one_minute_link)) ∧
      usedShortcodes (service s') = usedShortcodes (service one_minute_link).
Proof.
  eexists _, _.
  split; [vm_compute; reflexivity|].
  eapply getOriginalURL_success_effects. vm_compute. reflexivity.
Defined.

(** X8.  A new link resolves and counts: after a successful
    [createShortURL], two lookups made no later than the expiry both
    succeed, the first returning [clickCount = 1] and the second
    [clickCount = 2], each with the original URL. *)
Theorem create_then_resolve_twice url_parses b0 b1 b2 url validity custom s r s0 e :
  createShortURL url_parses b0 url validity custom s = (Return (Success r), s0) →
  expiresAt r = DateObj e →
  now_lookup b1 ≤ e → now_lookup b2 ≤ e →
  ∃ r1 s1 r2 s2,
    getOriginalURL b1 (shortcode r) s0 = (Return (Success r1), s1) ∧
    clickCount r1 = 1 ∧ originalUrl r1 = url ∧
    getOriginalURL b2 (shortcode r) s1 = (Return (Success r2), s2) ∧
    clickCount r2 = 2 ∧ originalUrl r2 = url ∧
    clicks r2 = [click_of b1; click_of b2].
Proof.
  intros Hcreate He H1 H2.
  apply createShortURL_success_record in Hcreate
    as (_ & _ & Hurl & _ & _ & Hn & Hc & Hu & Hh).
  assert (Hlive : ∀ b', now_lookup b' ≤ e → date_gt (now_lookup b') (DateObj e) = false).
  { intros b' Hb'. simpl. by apply Z.ltb_ge. }
  eexists _, _, _, _.
  split; [apply (getOriginalURL_live _ _ _ r []); [done..|rewrite He; by apply Hlive]|].
  split; [simpl; lia|]. split; [done|].
  split.
  { apply (getOriginalURL_live _ _ _ (clicked r (click_of b1)) ([] ++ [click_of b1])).
    - rewrite service_saveToStorage. simpl. by rewrite lookup_insert_eq.
    - rewrite service_saveToStorage. simpl. by rewrite lookup_insert_eq.
    - simpl. rewrite He. by apply Hlive. }
  simpl. rewrite Hn, Hc. done.
Qed.

Lemma create_then_resolve_twice_witness :
  ∃ r s0,
    createShortURL accept_all (browser_at 0 (λ _, 0%nat)) "https://example.com"
                   (Some (Integer 1)) None initial = (Return (Success r), s0) ∧
    ∃ r1 s1 r2 s2,
      getOriginalURL (browser_at 10 (λ _, 0%nat)) (shortcode r) s0 = (Return (Success r1), s1) ∧
      clickCount r1 = 1 ∧ originalUrl r1 = "https://example.com" ∧
      getOriginalURL (browser_at 60000 (λ _, 0%nat)) (shortcode r) s1
        = (Return (Success r2), s2) ∧
      clickCount r2 = 2 ∧ originalUrl r2 = "https://example.com" ∧
      clicks r2 = [click_of (browser_at 10 (λ _, 0%nat));
                   click_of (browser_at 60000 (λ _, 0%nat))].
Proof.
  eexists _, _. split; [vm_compute; reflexivity|].
  eapply (create_then_resolve_twice accept_all (browser_at 0 (λ _, 0%nat))
            (browser_at 10 (λ _, 0%nat)) (browser_at 60000 (λ _, 0%nat))
            "https://example.com" (Some (Integer 1)) None initial _ _ 60000).
  - vm_compute. reflexivity.
  - reflexivity.
  - simpl. lia.
  - simpl. lia.
Defined.

(** ** More on cleanup *)

Lemma cleanup_fold_nothing now_ms (l : list (string * URLRecord)) (acc : Registry * Z) :
  (∀ entry, entry ∈ l → date_gt now_ms (expiresAt entry.2) = false) →
  foldl (cleanup_entry now_ms) acc l = acc.
Proof.
  revert acc. induction l as [|[k r] l IH]; intros [reg n] Hall; [done|].
  pose proof (Hall (k, r) ltac:(by left)) as He. simpl in *. rewrite He. apply IH.
  intros entry Hin. apply Hall. by right.
Qed.

Lemma cleanup_nothing b s :
  (∀ code r, urls (service s) !! code = Some r →
             date_gt (now_cleanup b) (expiresAt r) = false) →
  cleanupExpiredURLs b s = s.
Proof.
  intros Hall. unfold cleanupExpiredURLs. rewrite cleanup_fold_nothing.
  - simpl. by destruct s.
  - intros [code r] Hin%elem_of_map_to_list. by apply (Hall code).
Qed.

Lemma cleanup_result_live b s code r :
  urls (service (cleanupExpiredURLs b s)) !! code = Some r →
  urls (service s) !! code = Some r ∧
  date_gt (now_cleanup b) (expiresAt r) = false.
Proof.
  rewrite service_cleanup. intros Hafter.
  pose proof (cleanup_fold_shrinks (now_cleanup b) (map_to_list (urls (service s)))
                (service s) 0 code) as (Hshrink & _ & _).
  pose proof (Hshrink r Hafter) as Hbefore. split; [done|].
  destruct (date_gt (now_cleanup b) (expiresAt r)) eqn:He; [|done].
  destruct (cleanup_fold_removes (now_cleanup b) (map_to_list (urls (service s)))
              (service s) 0 code r) as (Hgone & _ & _);
    [by apply elem_of_map_to_list | done |].
  simpl in Hgone. congruence.
Qed.

(** X10.  After [cleanupExpiredURLs], no record that [getAllURLs] lists
    compares as expired at the time of the cleanup, and every record listed
    was listed before. *)
Theorem cleanup_leaves_no_expired (b : Browser) (s : System) (r : URLRecord) :
  r ∈ getAllURLs (cleanupExpiredURLs b s) →
  date_gt (now_cleanup b) (expiresAt r) = false ∧ r ∈ getAllURLs s.
Proof.
  intros (code & Hu)%getAllURLs_elem.
  apply cleanup_result_live in Hu as [Hbefore He]. split; [done|].
  apply getAllURLs_elem. eauto.
Qed.

Lemma cleanup_leaves_no_expired_witness :
  let b := browser_at 30000 (λ _, 0%nat) in
  ∃ r, r ∈ getAllURLs (cleanupExpiredURLs b one_minute_link) ∧
       date_gt (now_cleanup b) (expiresAt r) = false ∧
       r ∈ getAllURLs one_minute_link.
Proof.
  intros b. eexists.
  assert (H : ∀ r, getAllURLs (cleanupExpiredURLs b one_minute_link) = [r] →
                   r ∈ getAllURLs (cleanupExpiredURLs b one_minute_link)).
  { intros r ->. by left. }
  split; [apply H; vm_compute; reflexivity|].
  apply (cleanup_leaves_no_expired b one_minute_link).
  apply H. vm_compute. reflexivity.
Defined.

(** X11.  When no listed record compares as expired, [cleanupExpiredURLs]
    changes nothing at all: not the maps, not the used set, and it does not
    write to storage. *)
Theorem cleanup_nothing_expired (b : Browser) (s : System) :
  (∀ r, r ∈ getAllURLs s → date_gt (now_cleanup b) (expiresAt r) = false) →
  cleanupExpiredURLs b s = s.
Proof.
  intros Hall. apply cleanup_nothing. intros code r Hu.
  apply Hall. apply getAllURLs_elem. eauto.
Qed.

Lemma cleanup_nothing_expired_witness :
  let b := browser_at 30000 (λ _, 0%nat) in
  (∀ r, r ∈ getAllURLs one_minute_link → date_gt (now_cleanup b) (expiresAt r) = false) ∧
  cleanupExpiredURLs b one_minute_link = one_minute_link.
Proof.
  intros b.
  assert (Hall : ∀ r, r ∈ getAllURLs one_minute_link →
                      date_gt (now_cleanup b) (expiresAt r) = false).
  { intros r Hin.
    assert (Hl : getAllURLs one_minute_link
                 = [new_record (browser_at 0 (λ _, 0%nat)) "https://example.com" 1 "AAAAAA"])
      by (vm_compute; reflexivity).
    rewrite Hl in Hin. apply list_elem_of_singleton in Hin as ->. reflexivity. }
  split; [exact Hall|].
  exact (cleanup_nothing_expired b one_minute_link Hall).
Defined.

(** X12.  Cleaning up twice at the same clock reading is the same as
    cleaning up once. *)
Theorem cleanup_idempotent (b : Browser) (s : System) :
  cleanupExpiredURLs b (cleanupExpiredURLs b s) = cleanupExpiredURLs b s.
Proof.
  apply cleanup_nothing. intros code r Hu.
  by apply cleanup_result_live in Hu as [_ He].
Qed.

(** ** Storage *)

Lemma generateShortcode_with_storage ok b reg :
  generateShortcode (with_storage ok b) reg = generateShortcode b reg.
Proof. reflexivity. Qed.

Lemma saveToStorage_with_storage_false b s :
  saveToStorage (with_storage false b) s = s.
Proof. reflexivity. Qed.

(** X13.  A failing storage write is invisible to callers: with
    [localStorage.setItem] throwing, [createShortURL], [getOriginalURL] and
    [cleanupExpiredURLs] return the same result and leave the same registry
    in memory as when it succeeds; only the stored copy is left as it was. *)
Theorem storage_failure_is_invisible url_parses b url validity custom code s :
  let b' := with_storage false b in
  ((createShortURL url_parses b' url validity custom s).1
     = (createShortURL url_parses b url validity custom s).1 ∧
   service (createShortURL url_parses b' url validity custom s).2
     = service (createShortURL url_parses b url validity custom s).2 ∧
   localStorage (createShortURL url_parses b' url validity custom s).2 = localStorage s) ∧
  ((getOriginalURL b' code s).1 = (getOriginalURL b code s).1 ∧
   service (getOriginalURL b' code s).2 = service (getOriginalURL b code s).2 ∧
   localStorage (getOriginalURL b' code s).2 = localStorage s) ∧
  (service (cleanupExpiredURLs b' s) = service (cleanupExpiredURLs b s) ∧
   localStorage (cleanupExpiredURLs b' s) = localStorage s).
Proof.
  intros b'. subst b'. split; [|split].
  - unfold createShortURL.
    destruct (validateURL url_parses url); simpl; [|done].
    destruct (default (Integer 30) validity) as [minutes|]; [|done].
    destruct (minutes <=? 0); [done|].
    assert (Hch : chooseShortcode (with_storage false b) custom (service s)
                  = chooseShortcode b custom (service s)) by (by destruct custom as [[|]|]).
    rewrite Hch. destruct (chooseShortcode b custom (service s)) as [e|[c reg]]; [done|].
    rewrite saveToStorage_with_storage_false.
    change (now_created (with_storage false b)) with (now_created b).
    change (now_id (with_storage false b)) with (now_id b).
    change (origin (with_storage false b)) with (origin b).
    destruct (new_Date _); simpl; by rewrite service_saveToStorage.
  - unfold getOriginalURL, recordClick.
    destruct (urls (service s) !! code) as [r|]; [|done].
    change (now_lookup (with_storage false b)) with (now_lookup b).
    destruct (date_gt _ _); [done|].
    destruct (clickData (service s) !! code) as [history|]; [|done].
    rewrite saveToStorage_with_storage_false, !service_saveToStorage. simpl.
    rewrite ?service_saveToStorage. simpl. rewrite !lookup_insert_eq.
    repeat split; reflexivity.
  - rewrite !service_cleanup. split; [done|].
    unfold cleanupExpiredURLs.
    change (now_cleanup (with_storage false b)) with (now_cleanup b).
    destruct (foldl _ _ _) as [reg n]. by destruct (0 <? n).
Qed.

Lemma json_click_idemp (c : ClickEvent) : json_click (json_click c) = json_click c.
Proof. destruct c. unfold json_click. simpl. by rewrite json_date_idemp. Qed.

Lemma json_record_idemp (r : URLRecord) : json_record (json_record r) = json_record r.
Proof.
  destruct r. unfold json_record. simpl. rewrite !json_date_idemp. f_equal.
  rewrite map_map. apply map_ext. apply json_click_idemp.
Qed.

Lemma reloaded_idemp (reg : Registry) : reloaded (reloaded reg) = reloaded reg.
Proof.
  unfold reloaded. simpl. f_equal.
  - apply map_eq. intros code. rewrite !lookup_fmap.
    destruct (urls reg !! code); simpl; [|done]. by rewrite json_record_idemp.
  - apply map_eq. intros code. rewrite !lookup_fmap.
    destruct (clickData reg !! code); simpl; [|done].
    f_equal. rewrite map_map. apply map_ext. apply json_click_idemp.
Qed.

(** X14.  What a save followed by a reload keeps.  The used set and the set
    of stored shortcodes are the same; each record comes back under its
    shortcode with the same id, URLs, shortcode, validity and click count,
    as many clicks, and timestamps that denote the same instants. *)
Theorem reload_preserves (b : Browser) (s : System) :
  storage_ok b = true →
  let s' := restart (saveToStorage b s) in
  usedShortcodes (service s') = usedShortcodes (service s) ∧
  dom (urls (service s')) = dom (urls (service s)) ∧
  dom (clickData (service s')) = dom (clickData (service s)) ∧
  ∀ code r, urls (service s) !! code = Some r →
    ∃ r', urls (service s') !! code = Some r' ∧
          id r' = id r ∧ originalUrl r' = originalUrl r ∧
          shortcode r' = shortcode r ∧ shortUrl r' = shortUrl r ∧
          validityMinutes r' = validityMinutes r ∧ clickCount r' = clickCount r ∧
          length (clicks r') = length (clicks r) ∧
          instant (createdAt r') = instant (createdAt r) ∧
          instant (expiresAt r') = instant (expiresAt r).
Proof.
  intros Hok s'. subst s'. rewrite restart_saveToStorage by done. simpl.
  split; [done|]. split; [by rewrite dom_fmap_L|]. split; [by rewrite dom_fmap_L|].
  intros code r Hu. exists (json_record r). rewrite lookup_fmap, Hu. simpl.
  rewrite length_map, !instant_json_date. done.
Qed.

Lemma reload_preserves_witness :
  let b := browser_at 0 (λ _, 0%nat) in
  storage_ok b = true ∧
  let s' := restart (saveToStorage b resolved_once) in
  usedShortcodes (service s') = usedShortcodes (service resolved_once) ∧
  dom (urls (service s')) = dom (urls (service resolved_once)) ∧
  dom (clickData (service s')) = dom (clickData (service resolved_once)) ∧
  ∀ code r, urls (service resolved_once) !! code = Some r →
    ∃ r', urls (service s') !! code = Some r' ∧
          id r' = id r ∧ originalUrl r' = originalUrl r ∧
          shortcode r' = shortcode r ∧ shortUrl r' = shortUrl r ∧
          validityMinutes r' = validityMinutes r ∧ clickCount r' = clickCount r ∧
          length (clicks r') = length (clicks r) ∧
          instant (createdAt r') = instant (createdAt r) ∧
          instant (expiresAt r') = instant (expiresAt r).
Proof.
  intros b. split; [reflexivity|].
  exact (reload_preserves b resolved_once eq_refl).
Defined.

(** X15.  A second save and reload changes nothing more: the registry after
    two reloads is the registry after one. *)
Theorem reload_twice (b1 b2 : Browser) (s : System) :
  storage_ok b1 = true → storage_ok b2 = true →
  service (restart (saveToStorage b2 (restart (saveToStorage b1 s))))
  = service (restart (saveToStorage b1 s)).
Proof.
  intros H1 H2. rewrite !restart_saveToStorage by done. apply reloaded_idemp.
Qed.

Lemma reload_twice_witness :
  let b := browser_at 0 (λ _, 0%nat) in
  storage_ok b = true ∧
  service (restart (saveToStorage b (restart (saveToStorage b resolved_once))))
  = service (restart (saveToStorage b resolved_once)).
Proof.
  intros b. split; [reflexivity|].
  exact (reload_twice b b resolved_once eq_refl eq_refl).
Defined.

(** ** Where the records of a reachable state come from *)

(** After an operation, storage is as before or holds the new registry. *)
Lemma saveToStorage_storage b s :
  localStorage (saveToStorage b s) = localStorage s ∨
  localStorage (saveToStorage b s) = Some (serialize (service (saveToStorage b s))).
Proof.
  rewrite service_saveToStorage, localStorage_saveToStorage.
  destruct (storage_ok b); auto.
Qed.

Lemma createShortURL_state url_parses b url validity custom s :
  (createShortURL url_parses b url validity custom s).2 = s ∨
  ∃ minutes code reg,
    validateURL url_parses url = true ∧ 0 < minutes ∧
    urls reg = urls (service s) ∧
    (createShortURL url_parses b url validity custom s).2
      = stored_record b url minutes code reg (localStorage s).
Proof.
  destruct (validateURL url_parses url) eqn:Hurl;
    [|left; by rewrite createShortURL_invalid_url].
  destruct (default (Integer 30) validity) as [minutes|] eqn:Hv;
    [|left; by rewrite createShortURL_invalid_validity by auto].
  destruct (decide (0 < minutes)) as [Hm|Hm];
    [|left; rewrite createShortURL_invalid_validity; [done..|right; exists minutes; split; [done|lia]]].
  rewrite (createShortURL_valid_inputs _ _ _ _ _ _ minutes) by done.
  destruct (chooseShortcode _ _ _) as [e|[code reg]] eqn:Hch; [by left|].
  right. exists minutes, code, reg. apply chooseShortcode_maps in Hch as [Hu _].
  done.
Qed.

Lemma recordClick_state b code s :
  (recordClick b code s).2 = s ∨
  ∃ r, urls (service s) !! code = Some r ∧
       urls (service (recordClick b code s).2)
         = <[code := clicked r (click_of b)]> (urls (service s)) ∧
       (localStorage (recordClick b code s).2 = localStorage s ∨
        localStorage (recordClick b code s).2
          = Some (serialize (service (recordClick b code s).2))).
Proof.
  unfold recordClick. destruct (urls (service s) !! code) as [r|]; [|by left].
  right. exists r. split; [done|].
  destruct (clickData (service s) !! code) as [history|]; simpl.
  - split; [by rewrite service_saveToStorage|].
    apply (saveToStorage_storage b (mkSystem _ _)).
  - auto.
Qed.

Lemma getOriginalURL_state b code s :
  (getOriginalURL b code s).2 = s ∨
  (getOriginalURL b code s).2 = (recordClick b code s).2.
Proof.
  unfold getOriginalURL. destruct (urls (service s) !! code) as [r|]; [|by left].
  destruct (date_gt _ _); [by left|].
  right. by destruct (recordClick b code s) as [[?|?] ?].
Qed.

Lemma cleanup_storage b s :
  localStorage (cleanupExpiredURLs b s) = localStorage s ∨
  localStorage (cleanupExpiredURLs b s)
    = Some (serialize (service (cleanupExpiredURLs b s))).
Proof.
  unfold cleanupExpiredURLs. destruct (foldl _ _ _) as [reg n].
  destruct (0 <? n); [|by left].
  destruct (saveToStorage_storage b (mkSystem reg (localStorage s))); auto.
Qed.

Section RecordInvariant.

Variable url_parses : string → bool.

(** A property of a stored record (and the key it is stored under) that new
    records have and that a click and the trip through JSON keep. *)
Variable P : string → URLRecord → Prop.
Hypothesis P_new : ∀ b url minutes code,
  validateURL url_parses url = true → 0 < minutes →
  P code (new_record b url minutes code).
Hypothesis P_click : ∀ b code r, P code r → P code (clicked r (click_of b)).
Hypothesis P_json : ∀ code r, P code r → P code (json_record r).

Lemma records_step (s s' : System) :
  step url_parses s s' →
  (∀ code r, urls (service s) !! code = Some r → P code r) →
  (∀ d, localStorage s = Some d →
        ∃ reg, d = serialize reg ∧ ∀ code r, urls reg !! code = Some r → P code r) →
  (∀ code r, urls (service s') !! code = Some r → P code r) ∧
  (∀ d, localStorage s' = Some d →
        ∃ reg, d = serialize reg ∧ ∀ code r, urls reg !! code = Some r → P code r).
Proof.
  intros Hstep Hmem Hdisk.
  assert (Hshape : ∀ t : System,
             (∀ code r, urls (service t) !! code = Some r → P code r) →
             (localStorage t = localStorage s ∨
              localStorage t = Some (serialize (service t))) →
             (∀ code r, urls (service t) !! code = Some r → P code r) ∧
             (∀ d, localStorage t = Some d →
                   ∃ reg, d = serialize reg ∧
                          ∀ code r, urls reg !! code = Some r → P code r)).
  { intros t Ht Hls. split; [done|]. intros d Hd. destruct Hls as [Hls|Hls].
    - apply Hdisk. by rewrite <- Hls.
    - rewrite Hls in Hd. injection Hd as <-. eauto. }
  assert (Hclick : ∀ b code,
             (∀ code' r, urls (service (recordClick b code s).2) !! code' = Some r → P code' r) ∧
             (localStorage (recordClick b code s).2 = localStorage s ∨
              localStorage (recordClick b code s).2
                = Some (serialize (service (recordClick b code s).2)))).
  { intros b code. destruct (recordClick_state b code s) as [-> | (r & Hu & -> & Hls)];
      [by auto|]. split; [|done].
    intros code' r'. destruct (decide (code = code')) as [<-|Hne].
    - rewrite lookup_insert_eq. intros [= <-]. apply P_click. by apply Hmem.
    - rewrite lookup_insert_ne by done. apply Hmem. }
  destruct Hstep as [b url validity custom s|b code s|b code s|b s|b s|s].
  - destruct (createShortURL_state url_parses b url validity custom s)
      as [-> | (minutes & code & reg & Hurl & Hm & Hu & ->)]; [by apply Hshape; auto|].
    unfold stored_record. apply Hshape.
    + rewrite service_saveToStorage. simpl. rewrite Hu. intros code' r'.
      destruct (decide (code = code')) as [<-|Hne].
      * rewrite lookup_insert_eq. intros [= <-]. by apply P_new.
      * rewrite lookup_insert_ne by done. apply Hmem.
    + apply (saveToStorage_storage b (mkSystem _ (localStorage s))).
  - destruct (getOriginalURL_state b code s) as [-> | ->]; [by apply Hshape; auto|].
    apply Hshape; apply Hclick.
  - apply Hshape; apply Hclick.
  - apply Hshape; [|apply cleanup_storage].
    intros code r [Hu _]%cleanup_result_live. by apply Hmem.
  - apply Hshape; [by rewrite service_saveToStorage | apply saveToStorage_storage].
  - unfold restart. destruct (localStorage s) as [d|] eqn:Hd.
    + destruct (Hdisk d eq_refl) as (reg & -> & Hreg). rewrite boot_serialize. simpl.
      split.
      * intros code r'. rewrite lookup_fmap.
        destruct (urls reg !! code) as [r|] eqn:Hr; [|done].
        intros [= <-]. apply P_json. by apply Hreg.
      * intros d [= <-]. eauto.
    + split; [|done]. intros code r. unfold boot, loadFromStorage. simpl.
      by rewrite lookup_empty.
Qed.

(** Every record of a reachable state has the property. *)
Lemma records_reachable (s : System) :
  reachable url_parses s →
  ∀ code r, urls (service s) !! code = Some r → P code r.
Proof.
  intros Hreach.
  cut ((∀ code r, urls (service s) !! code = Some r → P code r) ∧
       (∀ d, localStorage s = Some d →
             ∃ reg, d = serialize reg ∧ ∀ code r, urls reg !! code = Some r → P code r));
    [by intros [? _]|].
  induction Hreach as [|s s' _ [IHm IHd] Hstep].
  - split; [|done]. intros code r. unfold initial, boot, loadFromStorage. simpl.
    by rewrite lookup_empty.
  - by apply (records_step s s').
Qed.

End RecordInvariant.

(** ** Well-formed records *)

(** X16.  In every reachable state a record is stored under its own
    shortcode, and its short URL is an origin, a slash and that shortcode. *)
Theorem record_under_own_shortcode url_parses (s : System) (code : string) (r : URLRecord) :
  reachable url_parses s →
  urls (service s) !! code = Some r →
  shortcode r = code ∧ ∃ o, shortUrl r = o +:+ "/" +:+ code.
Proof.
  intros Hreach Hu.
  apply (records_reachable url_parses
           (λ code r, shortcode r = code ∧ ∃ o, shortUrl r = o +:+ "/" +:+ code))
    with (s := s); [| | |exact Hreach|exact Hu].
  - intros b url minutes c Hurl Hm. simpl. eauto.
  - intros b c r0 [<- [o Ho]]. simpl. eauto.
  - intros c r0 [<- [o Ho]]. simpl. eauto.
Qed.

Lemma record_under_own_shortcode_witness :
  reachable accept_all resolved_once ∧
  ∃ r, urls (service resolved_once) !! "AAAAAA" = Some r ∧
       shortcode r = "AAAAAA" ∧ ∃ o, shortUrl r = o +:+ "/" +:+ "AAAAAA".
Proof.
  split; [exact reachable_resolved_once|].
  eexists. split; [vm_compute; reflexivity|].
  apply (record_under_own_shortcode accept_all resolved_once "AAAAAA").
  - exact reachable_resolved_once.
  - vm_compute. reflexivity.
Defined.

(** X17.  In every reachable state the original URL of every stored record
    passes [validateURL]: no other URL ever enters the registry. *)
Theorem stored_urls_are_valid url_parses (s : System) (code : string) (r : URLRecord) :
  reachable url_parses s →
  urls (service s) !! code = Some r →
  validateURL url_parses (originalUrl r) = true.
Proof.
  intros Hreach Hu.
  apply (records_reachable url_parses
           (λ _ r, validateURL url_parses (originalUrl r) = true))
    with (s := s) (code := code); [| | |exact Hreach|exact Hu].
  - by intros b url minutes c Hurl Hm.
  - by intros b c r0 Hr0.
  - by intros c r0 Hr0.
Qed.

Lemma stored_urls_are_valid_witness :
  reachable accept_all resolved_once ∧
  ∃ r, urls (service resolved_once) !! "AAAAAA" = Some r ∧
       validateURL accept_all (originalUrl r) = true.
Proof.
  split; [exact reachable_resolved_once|].
  eexists. split; [vm_compute; reflexivity|].
  apply (stored_urls_are_valid accept_all resolved_once "AAAAAA").
  - exact reachable_resolved_once.
  - vm_compute. reflexivity.
Defined.

(** X18.  In every reachable state every stored record has a positive
    validity and a creation time that denotes an instant; when its expiry
    denotes an instant too, that instant is the creation instant plus the
    validity in minutes times 60000 milliseconds. *)
Theorem stored_expiry_is_creation_plus_validity url_parses (s : System) (code : string)
    (r : URLRecord) :
  reachable url_parses s →
  urls (service s) !! code = Some r →
  0 < validityMinutes r ∧
  ∃ c, instant (createdAt r) = Some c ∧
       ∀ e, instant (expiresAt r) = Some e → e = c + validityMinutes r * 60 * 1000.
Proof.
  intros Hreach Hu.
  apply (records_reachable url_parses
           (λ _ r, 0 < validityMinutes r ∧
                   ∃ c, instant (createdAt r) = Some c ∧
                        ∀ e, instant (expiresAt r) = Some e →
                             e = c + validityMinutes r * 60 * 1000))
    with (s := s) (code := code); [| | |exact Hreach|exact Hu].
  - intros b url minutes c0 Hurl Hm. simpl. split; [done|].
    exists (now_created b). split; [done|]. unfold new_Date.
    destruct (Z.abs _ <=? max_time); simpl; [|done]. by intros e [= <-].
  - by intros b c0 r0 Hr0.
  - intros c0 r0 (Hv & c & Hc & He). simpl. rewrite !instant_json_date. eauto.
Qed.

Lemma stored_expiry_is_creation_plus_validity_witness :
  reachable accept_all resolved_once ∧
  ∃ r, urls (service resolved_once) !! "AAAAAA" = Some r ∧
       0 < validityMinutes r ∧
       ∃ c, instant (createdAt r) = Some c ∧
            ∀ e, instant (expiresAt r) = Some e → e = c + validityMinutes r * 60 * 1000.
Proof.
  split; [exact reachable_resolved_once|].
  eexists. split; [vm_compute; reflexivity|].
  apply (stored_expiry_is_creation_plus_validity accept_all resolved_once "AAAAAA").
  - exact reachable_resolved_once.
  - vm_compute. reflexivity.
Defined.

Lemma getClickSource_nonempty (b : Browser) : getClickSource b ≠ EmptyString.
Proof. unfold getClickSource. by destruct (referrer b). Qed.

(** X19.  In every reachable state every click event kept in a record has a
    non-empty source (the referrer, or ["Direct"] when there is none), the
    location ["Unknown"], and a timestamp that denotes an instant. *)
Theorem recorded_clicks_are_well_formed url_parses (s : System) (code : string)
    (r : URLRecord) (click : ClickEvent) :
  reachable url_parses s →
  urls (service s) !! code = Some r →
  click ∈ clicks r →
  source click ≠ EmptyString ∧ location click = "Unknown" ∧
  is_Some (instant (timestamp click)).
Proof.
  intros Hreach Hu Hin.
  assert (Hall : Forall (λ c, source c ≠ EmptyString ∧ location c = "Unknown" ∧
                              is_Some (instant (timestamp c))) (clicks r)).
  { apply (records_reachable url_parses
             (λ _ r, Forall (λ c, source c ≠ EmptyString ∧ location c = "Unknown" ∧
                                  is_Some (instant (timestamp c))) (clicks r)))
      with (s := s) (code := code); [| | |exact Hreach|exact Hu].
    - intros b url minutes c0 Hurl Hm. simpl. constructor.
    - intros b c0 r0 Hr0. simpl. apply Forall_app. split; [done|].
      constructor; [|constructor]. simpl.
      split; [apply getClickSource_nonempty|]. split; [done | by eexists].
    - intros c1 r0 Hr0. simpl. apply Forall_forall. intros c Hc.
      apply list_elem_of_In, in_map_iff in Hc as (c0 & <- & Hc0).
      rewrite Forall_forall in Hr0. apply list_elem_of_In in Hc0.
      specialize (Hr0 c0 Hc0). simpl. by rewrite instant_json_date. }
  rewrite Forall_forall in Hall. by apply Hall.
Qed.

Lemma recorded_clicks_are_well_formed_witness :
  let click := click_of (browser_at 30000 (λ _, 0%nat)) in
  reachable accept_all resolved_once ∧
  ∃ r, urls (service resolved_once) !! "AAAAAA" = Some r ∧
       click ∈ clicks r ∧
       source click = "Direct" ∧
       source click ≠ EmptyString ∧ location click = "Unknown" ∧
       is_Some (instant (timestamp click)).
Proof.
  intros click. split; [exact reachable_resolved_once|].
  eexists. split; [vm_compute; reflexivity|].
  assert (Hin : click ∈ [click]) by (by left).
  split; [exact Hin|]. split; [reflexivity|].
  eapply (recorded_clicks_are_well_formed accept_all resolved_once "AAAAAA").
  - exact reachable_resolved_once.
  - vm_compute. reflexivity.
  - exact Hin.
Defined.

(** * The logger *)

Module LogFacts.
Import Log.

Lemma logLevels_own on_prototype name n :
  logLevels on_prototype name = Own n → 0 ≤ n ≤ 3.
Proof.
  unfold logLevels, ERROR, WARN, INFO, DEBUG.
  repeat (destruct (String.eqb name _); [intros [= <-]; lia|]).
  by destruct (on_prototype name).
Qed.

End LogFacts.

(** X20.  [setLevel] cannot select error-only logging.  Whatever name it is
    given, the level it sets is never 0: for a name that is not a property
    of [Object.prototype] it is 1, 2 or 3 ([setLevel("ERROR")] gives INFO),
    so that a following [warn] or [error] always records its entry. *)
Theorem setLevel_never_error_only (on_prototype : string → bool) (name : string)
    (lg : Log.Logger) (t : Z) (msg : string) (d : option string) :
  let lg' := Log.setLevel on_prototype name lg in
  Log.currentLevel lg' ≠ Log.Num 0 ∧
  (Log.currentLevel (Log.setLevel on_prototype "ERROR" lg) = Log.Num Log.INFO) ∧
  (on_prototype name = false →
     (∃ n, Log.currentLevel lg' = Log.Num n ∧ 1 ≤ n ≤ 3) ∧
     Log.logs (Log.warn t msg d lg') = Log.logs lg ++ [Log.mkEntry t "WARN" msg d] ∧
     Log.logs (Log.error t msg d lg') = Log.logs lg ++ [Log.mkEntry t "ERROR" msg d]).
Proof.
  intros lg'. subst lg'.
  assert (Hn : on_prototype name = false →
               ∃ n, Log.currentLevel (Log.setLevel on_prototype name lg) = Log.Num n ∧
                    1 ≤ n ≤ 3).
  { intros Hp. unfold Log.setLevel. simpl.
    destruct (Log.logLevels on_prototype name) as [n| |] eqn:Hl.
    - apply LogFacts.logLevels_own in Hl. destruct (n =? 0) eqn:H0.
      + exists Log.INFO. split; [done|]. unfold Log.INFO. lia.
      + apply Z.eqb_neq in H0. exists n. split; [done|]. lia.
    - unfold Log.logLevels in Hl.
      repeat (destruct (String.eqb name _); [done|]). by rewrite Hp in Hl.
    - exists Log.INFO. split; [done|]. unfold Log.INFO. lia. }
  split; [|split; [reflexivity|]].
  - unfold Log.setLevel. simpl.
    destruct (Log.logLevels on_prototype name) as [n| |]; try done.
    destruct (n =? 0) eqn:H0; [done|]. apply Z.eqb_neq in H0. congruence.
  - intros Hp. destruct (Hn Hp) as (n & Hl & Hrange). split; [eauto|].
    unfold Log.warn, Log.error. rewrite Hl. simpl.
    replace (Log.WARN <=? n) with true by (symmetry; apply Z.leb_le; unfold Log.WARN; lia).
    replace (Log.ERROR <=? n) with true by (symmetry; apply Z.leb_le; unfold Log.ERROR; lia).
    done.
Qed.

(** X21.  At the level a new logger starts with (INFO), and at any numeric
    level from 2 up, [error], [warn] and [info] each append exactly their
    entry (own tag, message, data, clock) after what is already logged and
    leave the level alone; [debug] is recorded only from level 3 up, so a
    logger left at INFO drops every [debug] call. *)
Theorem logging_at_info_level (lg : Log.Logger) (n t : Z) (msg : string) (d : option string) :
  Log.currentLevel lg = Log.Num n → 2 ≤ n →
  Log.error t msg d lg = Log.mkLogger (Log.logs lg ++ [Log.mkEntry t "ERROR" msg d]) (Log.Num n) ∧
  Log.warn t msg d lg = Log.mkLogger (Log.logs lg ++ [Log.mkEntry t "WARN" msg d]) (Log.Num n) ∧
  Log.info t msg d lg = Log.mkLogger (Log.logs lg ++ [Log.mkEntry t "INFO" msg d]) (Log.Num n) ∧
  Log.debug t msg d lg =
    (if 3 <=? n then Log.mkLogger (Log.logs lg ++ [Log.mkEntry t "DEBUG" msg d]) (Log.Num n)
     else lg) ∧
  Log.currentLevel Log.new = Log.Num 2.
Proof.
  intros Hl Hn. unfold Log.error, Log.warn, Log.info, Log.debug, Log.formatLog.
  rewrite Hl. simpl.
  replace (Log.ERROR <=? n) with true by (symmetry; apply Z.leb_le; unfold Log.ERROR; lia).
  replace (Log.WARN <=? n) with true by (symmetry; apply Z.leb_le; unfold Log.WARN; lia).
  replace (Log.INFO <=? n) with true by (symmetry; apply Z.leb_le; unfold Log.INFO; lia).
  done.
Qed.

Lemma logging_at_info_level_witness :
  let lg := Log.info 1 "started" None Log.new in
  Log.currentLevel lg = Log.Num 2 ∧ 2 ≤ 2 ∧
  Log.logs (Log.debug 5 "detail" None lg) = Log.logs lg ∧
  Log.logs (Log.warn 5 "careful" None lg)
    = [Log.mkEntry 1 "INFO" "started" None; Log.mkEntry 5 "WARN" "careful" None].
Proof.
  intros lg.
  pose proof (logging_at_info_level lg 2 5 "detail" None eq_refl ltac:(lia))
    as (_ & _ & _ & Hdebug & _).
  pose proof (logging_at_info_level lg 2 5 "careful" None eq_refl ltac:(lia))
    as (_ & Hwarn & _).
  split; [reflexivity|]. split; [lia|]. split.
  - by rewrite Hdebug.
  - by rewrite Hwarn.
Defined.

(** X22.  In a logger used through [setLevel], the four logging methods and
    [clearLogs], every entry carries one of the four level tags, so the
    four [getLogsByLevel] views account for the whole log: their lengths
    add up to its length. *)
Theorem log_views_partition (on_prototype : string → bool) (lg : Log.Logger) :
  Log.reachable on_prototype lg →
  (length (Log.getLogsByLevel "ERROR" lg) + length (Log.getLogsByLevel "WARN" lg) +
   length (Log.getLogsByLevel "INFO" lg) + length (Log.getLogsByLevel "DEBUG" lg)
   = length (Log.getLogs lg))%nat.
Proof.
  intros Hreach.
  assert (Htags : Forall (λ entry, Log.level_tag entry ∈ ["ERROR"; "WARN"; "INFO"; "DEBUG"])
                         (Log.logs lg)).
  { induction Hreach as [|lg lg' _ IH Hstep]; [constructor|].
    destruct Hstep as [name lg|t msg d lg|t msg d lg|t msg d lg|t msg d lg|lg];
      simpl; try done.
    - unfold Log.error. destruct (Log.at_least _ _); [|done]. simpl.
      apply Forall_app. split; [done|]. constructor; [|done]. simpl. set_solver.
    - unfold Log.warn. destruct (Log.at_least _ _); [|done]. simpl.
      apply Forall_app. split; [done|]. constructor; [|done]. simpl. set_solver.
    - unfold Log.info. destruct (Log.at_least _ _); [|done]. simpl.
      apply Forall_app. split; [done|]. constructor; [|done]. simpl. set_solver.
    - unfold Log.debug. destruct (Log.at_least _ _); [|done]. simpl.
      apply Forall_app. split; [done|]. constructor; [|done]. simpl. set_solver. }
  unfold Log.getLogsByLevel, Log.getLogs. clear Hreach.
  induction Htags as [|entry l Htag _ IH]; [done|].
  assert (Hcase : Log.level_tag entry = "ERROR" ∨ Log.level_tag entry = "WARN" ∨
                  Log.level_tag entry = "INFO" ∨ Log.level_tag entry = "DEBUG").
  { rewrite !elem_of_cons, elem_of_nil in Htag. tauto. }
  rewrite !filter_cons.
  destruct Hcase as [H|[H|[H|H]]]; rewrite H;
    repeat (case_decide; try congruence); cbn [length] in *; lia.
Qed.

Lemma log_views_partition_witness :
  let lg := Log.debug 3 "d" None (Log.error 2 "e" None (Log.info 1 "i" (Some "{}") Log.new)) in
  Log.reachable (λ _, false) lg ∧
  length (Log.getLogs lg) = 2%nat ∧
  (length (Log.getLogsByLevel "ERROR" lg) + length (Log.getLogsByLevel "WARN" lg) +
   length (Log.getLogsByLevel "INFO" lg) + length (Log.getLogsByLevel "DEBUG" lg)
   = length (Log.getLogs lg))%nat.
Proof.
  intros lg.
  assert (Hreach : Log.reachable (λ _, false) lg).
  { eapply Log.reach_step; [eapply Log.reach_step; [eapply Log.reach_step;
      [apply Log.reach_new|apply Log.step_info]|apply Log.step_error]|apply Log.step_debug]. }
  split; [exact Hreach|]. split; [reflexivity|].
  exact (log_views_partition (λ _, false) lg Hreach).
Defined.

(** * The submission form *)

Module FormFacts.
Import Form.

Lemma ids_updateUrlField i f urls : map row_id (updateUrlField i f urls) = map row_id urls.
Proof.
  unfold updateUrlField. rewrite map_map. apply map_ext. intros url.
  destruct (decide (row_id url = i)); [|done]. by destruct f.
Qed.

Lemma ids_clearResults urls : map row_id (clearResults urls) = map row_id urls.
Proof. unfold clearResults. rewrite map_map. by apply map_ext. Qed.

Lemma ids_set_error i msg urls : map row_id (set_error i msg urls) = map row_id urls.
Proof.
  unfold set_error. rewrite map_map. apply map_ext. intros url.
  by destruct (decide (row_id url = i)).
Qed.

Lemma ids_merge_results results urls :
  map row_id (merge_results results urls) = map row_id urls.
Proof.
  unfold merge_results. rewrite map_map. apply map_ext. intros url.
  destruct (List.find _ results) as [r|] eqn:Hfind; [|done].
  apply find_some in Hfind as [_ Hid]. by apply bool_decide_eq_true in Hid.
Qed.

Lemma ids_validateAllUrls url_parses urls :
  map row_id (validateAllUrls url_parses urls).2 = map row_id urls.
Proof.
  unfold validateAllUrls. destruct (validUrls urls); [done|].
  destruct (first_problem _ _) as [[i msg]|]; [|done]. apply ids_set_error.
Qed.

Lemma ids_processUrls url_parses envs urls s :
  map row_id (processUrls url_parses envs urls s).1 = map row_id urls.
Proof.
  unfold processUrls.
  pose proof (ids_validateAllUrls url_parses urls) as Hv.
  destruct (validateAllUrls url_parses urls) as [[|] urls']; simpl in *; [|done].
  destruct (process_loop _ _ _ _ _) as [results s']. apply ids_merge_results.
Qed.

(** The largest of finitely many numeric ids bounds each of them. *)
Lemma Math_max_bound (ids : list rowid) :
  Forall (λ i, ∃ n, i = Id n) ids →
  match Math_max ids with
  | Id m => ∀ n, Id n ∈ ids → n ≤ m
  | MinusInfinity => ids = []
  end.
Proof.
  induction 1 as [|i ids [n ->] _ IH]; [done|]. simpl.
  destruct (Math_max ids) as [m|].
  - simpl. intros n' [[= ->]|Hin]%elem_of_cons; [lia|]. specialize (IH n' Hin). lia.
  - subst ids. simpl. intros n' [[= ->]|Hin]%elem_of_cons; [lia|].
    by apply elem_of_nil in Hin.
Qed.

Lemma new_id_fresh (ids : list rowid) :
  Forall (λ i, ∃ n, i = Id n) ids → ids ≠ [] →
  (plus_one (Math_max ids) ∉ ids) ∧ ∃ n, plus_one (Math_max ids) = Id n.
Proof.
  intros Hfin Hne. pose proof (Math_max_bound ids Hfin) as Hb.
  destruct (Math_max ids) as [m|]; [|done]. simpl. split; [|eauto].
  intros Hin. specialize (Hb _ Hin). lia.
Qed.

(** With distinct ids, removing an id removes at most one row. *)
Lemma length_filter_id (i : rowid) (urls : list Row) :
  NoDup (map row_id urls) →
  (length urls ≤ S (length (filter (λ url, row_id url ≠ i) urls)))%nat.
Proof.
  induction urls as [|u urls IH]; [simpl; lia|].
  simpl. intros [Hnotin Hnd]%NoDup_cons. rewrite filter_cons.
  destruct (decide (row_id u ≠ i)) as [Hne|Heq]; [simpl; specialize (IH Hnd); lia|].
  apply dec_stable in Heq. subst i.
  assert (Hall : filter (λ url, row_id url ≠ row_id u) urls = urls).
  { clear IH Hnd. induction urls as [|v urls IH]; [done|].
    rewrite filter_cons. simpl in Hnotin.
    apply not_elem_of_cons in Hnotin as [Hv Hrest].
    destruct (decide (row_id v ≠ row_id u)) as [|Hn]; [by rewrite IH|].
    exfalso. apply Hn. intros Heq. by apply Hv. }
  rewrite Hall. lia.
Qed.

Lemma ids_filter (P : Row → Prop) `{∀ u, Decision (P u)} (urls : list Row) :
  NoDup (map row_id urls) → NoDup (map row_id (filter P urls)).
Proof.
  induction urls as [|u urls IH]; [done|].
  simpl. intros [Hnotin Hnd]%NoDup_cons. rewrite filter_cons.
  destruct (decide (P u)); [|by apply IH].
  simpl. apply NoDup_cons. split; [|by apply IH].
  intros Hin. apply Hnotin.
  apply list_elem_of_In, in_map_iff in Hin as (v & Hv & Hin).
  apply list_elem_of_In, in_map_iff. exists v. split; [done|].
  apply list_elem_of_In. apply list_elem_of_In in Hin.
  by apply list_elem_of_filter in Hin as [_ ?].
Qed.

End FormFacts.

(** X23.  However the user adds, removes, edits, clears and submits rows,
    the form always holds between one and five rows, no two rows share an
    id, and every id is a number. *)
Theorem form_rows_bounded url_parses (urls : list Form.Row) :
  Form.reachable url_parses urls →
  (1 ≤ length urls ≤ 5)%nat ∧ NoDup (map Form.row_id urls) ∧
  Forall (λ i, ∃ n, i = Form.Id n) (map Form.row_id urls).
Proof.
  induction 1 as [|urls urls' _ (Hlen & Hnd & Hfin) Hstep].
  - simpl. split; [lia|]. split; [apply NoDup_singleton | repeat constructor; eauto].
  - assert (Hsame : ∀ rows : list Form.Row,
                map Form.row_id rows = map Form.row_id urls →
                (1 ≤ length rows ≤ 5)%nat ∧ NoDup (map Form.row_id rows) ∧
                Forall (λ i, ∃ n, i = Form.Id n) (map Form.row_id rows)).
    { intros rows Hids. rewrite Hids. split; [|done].
      rewrite <- (length_map Form.row_id rows), Hids, length_map. done. }
    destruct Hstep as [urls|i urls|i f urls|urls|envs urls s].
    + unfold Form.addUrlRow. destruct (Nat.leb_spec 5 (length urls)) as [|Hlt]; [done|].
      destruct (FormFacts.new_id_fresh (map Form.row_id urls) Hfin) as [Hfresh [n Hn]].
      { destruct urls; [simpl in Hlen; lia | done]. }
      rewrite length_app, map_app. simpl. split; [lia|]. split.
      * apply NoDup_app. split; [done|]. split; [|apply NoDup_singleton].
        intros x Hx Hx'. apply list_elem_of_singleton in Hx'. by subst x.
      * apply Forall_app. split; [done|]. repeat constructor. eauto.
    + unfold Form.removeUrlRow.
      destruct (Nat.leb_spec (length urls) 1) as [|Hlt]; [done|].
      pose proof (FormFacts.length_filter_id i urls Hnd) as Hge.
      pose proof (length_filter (λ url, Form.row_id url ≠ i) urls) as Hle.
      split; [lia|]. split; [by apply FormFacts.ids_filter|].
      apply Forall_forall. intros x Hx.
      apply list_elem_of_In, in_map_iff in Hx as (u & <- & Hu).
      apply list_elem_of_In, list_elem_of_filter in Hu as [_ Hu].
      rewrite Forall_forall in Hfin. apply Hfin.
      apply list_elem_of_In, in_map_iff. exists u. split; [done|].
      by apply list_elem_of_In.
    + apply Hsame, FormFacts.ids_updateUrlField.
    + apply Hsame, FormFacts.ids_clearResults.
    + apply Hsame, FormFacts.ids_processUrls.
Qed.

Lemma form_rows_bounded_witness :
  let urls := Form.removeUrlRow (Form.Id 1) (Form.addUrlRow (Form.addUrlRow Form.initial_rows)) in
  Form.reachable accept_all urls ∧
  map Form.row_id urls = [Form.Id 2; Form.Id 3] ∧
  (1 ≤ length urls ≤ 5)%nat ∧ NoDup (map Form.row_id urls) ∧
  Forall (λ i, ∃ n, i = Form.Id n) (map Form.row_id urls).
Proof.
  intros urls.
  assert (Hreach : Form.reachable accept_all urls).
  { eapply Form.reach_step; [eapply Form.reach_step; [eapply Form.reach_step;
      [apply Form.reach_initial|apply Form.step_add]|apply Form.step_add]|apply Form.step_remove]. }
  split; [exact Hreach|]. split; [reflexivity|].
  exact (form_rows_bounded accept_all urls Hreach).
Defined.

Module FormChecks.
Import Form.

(** A row without a problem is one the service's own validators accept. *)
Lemma row_problem_None url_parses (u : Row) :
  row_problem url_parses u = None ↔
  validateURL url_parses (row_originalUrl u) = true ∧
  (∃ minutes, row_validityMinutes u = Integer minutes ∧ 0 < minutes) ∧
  (row_customShortcode u = EmptyString ∨ validateShortcode (row_customShortcode u) = true).
Proof.
  unfold row_problem. destruct (validateURL url_parses (row_originalUrl u)); simpl.
  - destruct (row_validityMinutes u) as [minutes|].
    + destruct (minutes <=? 0) eqn:Hm.
      * apply Z.leb_le in Hm. split; [done|]. intros (_ & (m & [= <-] & Hpos) & _). lia.
      * apply Z.leb_gt in Hm. destruct (row_customShortcode u) as [|c rest] eqn:Hc.
        -- split; [|done]. intros _. split; [done|]. split; [eauto | by left].
        -- destruct (validateShortcode (String c rest)) eqn:Hv; simpl.
           ++ split; [|done]. intros _. split; [done|]. split; [eauto | by right].
           ++ split; [done|]. intros (_ & _ & [?|?]); done.
    + split; [done|]. intros (_ & (m & ? & _) & _). done.
  - split; [done|]. intros (? & _). done.
Qed.

Lemma first_problem_None url_parses (rows : list Row) :
  first_problem url_parses rows = None ↔
  Forall (λ u, row_problem url_parses u = None) rows.
Proof.
  induction rows as [|u rows IH]; simpl; [by split|].
  destruct (row_problem url_parses u) eqn:Hp.
  - split; [done|]. inversion 1; congruence.
  - rewrite IH. split; [by constructor | by inversion 1].
Qed.

Lemma validateAllUrls_true url_parses (urls : list Row) :
  (validateAllUrls url_parses urls).1 = true ↔
  validUrls urls ≠ [] ∧ Forall (λ u, row_problem url_parses u = None) (validUrls urls).
Proof.
  unfold validateAllUrls. rewrite <- first_problem_None.
  destruct (validUrls urls) as [|u rest] eqn:Hv; [split; [done | by intros [? _]]|].
  destruct (first_problem url_parses (u :: rest)) as [[i msg]|]; simpl.
  - split; [done | by intros [_ ?]].
  - by split.
Qed.

Lemma elem_of_validUrls (urls : list Row) (u : Row) :
  u ∈ validUrls urls ↔ u ∈ urls ∧ blank (row_originalUrl u) = false.
Proof. unfold validUrls. rewrite list_elem_of_filter. tauto. Qed.

End FormChecks.

(** X24.  [validateAllUrls] accepts the form exactly when some row has a
    URL that is not blank and every such row would pass the service's own
    checks: [validateURL] on the URL, a positive whole number of minutes,
    and [validateShortcode] on the custom shortcode if one is given.  When
    it refuses, [processUrls] calls the service for no row at all: the
    registry and the storage stay as they were. *)
Theorem validateAllUrls_spec url_parses (urls : list Form.Row) :
  ((Form.validateAllUrls url_parses urls).1 = true ↔
   (∃ u, u ∈ urls ∧ Form.blank (Form.row_originalUrl u) = false) ∧
   ∀ u, u ∈ urls → Form.blank (Form.row_originalUrl u) = false →
        validateURL url_parses (Form.row_originalUrl u) = true ∧
        (∃ minutes, Form.row_validityMinutes u = Integer minutes ∧ 0 < minutes) ∧
        (Form.row_customShortcode u = EmptyString ∨
         validateShortcode (Form.row_customShortcode u) = true)) ∧
  ((Form.validateAllUrls url_parses urls).1 = false →
   ∀ envs s, (Form.processUrls url_parses envs urls s).2 = s).
Proof.
  split.
  - rewrite FormChecks.validateAllUrls_true, Forall_forall. split.
    + intros [Hne Hall]. split.
      * destruct (Form.validUrls urls) as [|u rest] eqn:Hv; [done|].
        exists u. apply FormChecks.elem_of_validUrls. rewrite Hv. by left.
      * intros u Hu Hb. apply FormChecks.row_problem_None, Hall.
        by apply FormChecks.elem_of_validUrls.
    + intros [(u & Hu & Hb) Hall]. split.
      * intros Hnil. assert (Hin : u ∈ Form.validUrls urls)
          by (by apply FormChecks.elem_of_validUrls).
        rewrite Hnil in Hin. by apply elem_of_nil in Hin.
      * intros v [Hv Hb']%FormChecks.elem_of_validUrls.
        apply FormChecks.row_problem_None. by apply Hall.
  - intros Hfalse envs s. unfold Form.processUrls.
    destruct (Form.validateAllUrls url_parses urls) as [ok urls']. simpl in Hfalse.
    by rewrite Hfalse.
Qed.

Module FormProcess.
Import Form.

Lemma process_loop_outcomes url_parses envs (rows : list Row) :
  Forall (λ u, row_problem url_parses u = None) rows →
  ∀ i s,
    Forall2 (λ u o, outcome_id o = row_id u ∧
                    settled u (outcome_result o) (outcome_error o))
            rows (process_loop url_parses envs i rows s).1.
Proof.
  induction 1 as [|u rows Hu _ IH]; intros i s; [constructor|].
  simpl. specialize (IH (S i)).
  apply FormChecks.row_problem_None in Hu as (Hurl & (minutes & Hv & Hm) & Hcustom).
  set (custom := match row_customShortcode u with
                 | EmptyString => None
                 | c => Some c
                 end).
  rewrite (createShortURL_valid_inputs _ _ _ _ _ _ minutes); [|done|by rewrite Hv|done].
  assert (Hchoice :
    (∃ code reg, chooseShortcode (envs i) custom (service s) = inr (code, reg) ∧
                 (row_customShortcode u ≠ EmptyString → code = row_customShortcode u)) ∨
    (chooseShortcode (envs i) custom (service s) = inl err_shortcode_taken ∧
     row_customShortcode u ≠ EmptyString)).
  { subst custom. destruct (row_customShortcode u) as [|c rest] eqn:Hc.
    - left. simpl. destruct (generateShortcode (envs i) (service s)) as [code reg].
      by exists code, reg.
    - destruct Hcustom as [?|Hvalid]; [done|].
      destruct (decide (String c rest ∈ usedShortcodes (service s))) as [Hin|Hout].
      + right. by rewrite chooseShortcode_taken.
      + left. rewrite chooseShortcode_custom by done. by exists (String c rest), (service s). }
  destruct Hchoice as [(code & reg & -> & Hcode)|[-> Hne]].
  - destruct (new_Date _) eqn:Hdate; simpl;
      match goal with
      | |- context [process_loop ?p ?e ?j ?r ?t] =>
          specialize (IH t); destruct (process_loop p e j r t) as [outs s']
      end; simpl in *; constructor; try done; simpl; split; try done;
      try (left; eexists; by repeat split);
      right; split; [done | by right].
  - simpl.
    match goal with
    | |- context [process_loop ?p ?e ?j ?r ?t] =>
        specialize (IH t); destruct (process_loop p e j r t) as [outs s']
    end; simpl in *. constructor; [|done]. simpl. split; [done|].
    right. split; [done|]. by left.
Qed.

Lemma find_paired (R : Row → Outcome → Prop) (rows : list Row) (outs : list Outcome) :
  Forall2 (λ u o, outcome_id o = row_id u ∧ R u o) rows outs →
  NoDup (map row_id rows) →
  ∀ u, u ∈ rows →
    ∃ o, List.find (λ r, bool_decide (outcome_id r = row_id u)) outs = Some o ∧
         outcome_id o = row_id u ∧ R u o.
Proof.
  induction 1 as [|v o rows outs [Hid HR] _ IH]; intros Hnd u Hin.
  - by apply elem_of_nil in Hin.
  - simpl in Hnd. apply NoDup_cons in Hnd as [Hnotin Hnd]. simpl.
    apply elem_of_cons in Hin as [->|Hin].
    + rewrite bool_decide_eq_true_2 by done. eauto.
    + rewrite bool_decide_eq_false_2; [by apply IH|].
      rewrite Hid. intros Heq. apply Hnotin. rewrite Heq.
      apply list_elem_of_In, in_map, list_elem_of_In. done.
Qed.

Lemma find_absent (R : Row → Outcome → Prop) (rows : list Row) (outs : list Outcome)
    (i : rowid) :
  Forall2 (λ u o, outcome_id o = row_id u ∧ R u o) rows outs →
  i ∉ map row_id rows →
  List.find (λ r, bool_decide (outcome_id r = i)) outs = None.
Proof.
  induction 1 as [|v o rows outs [Hid HR] _ IH]; intros Hnotin; [done|].
  simpl in *. apply not_elem_of_cons in Hnotin as [Hne Hrest].
  rewrite bool_decide_eq_false_2 by congruence. by apply IH.
Qed.

Lemma same_id_same_row (rows : list Row) (u v : Row) :
  NoDup (map row_id rows) → u ∈ rows → v ∈ rows → row_id u = row_id v → u = v.
Proof.
  induction rows as [|w rows IH]; intros Hnd Hu Hv Heq.
  - by apply elem_of_nil in Hu.
  - simpl in Hnd. apply NoDup_cons in Hnd as [Hnotin Hnd].
    assert (Hmem : ∀ x : Row, x ∈ rows → row_id x ∈ map row_id rows).
    { intros x Hx. by apply list_elem_of_In, in_map, list_elem_of_In. }
    apply elem_of_cons in Hu as [->|Hu]; apply elem_of_cons in Hv as [->|Hv]; try done.
    + exfalso. apply Hnotin. rewrite Heq. by apply Hmem.
    + exfalso. apply Hnotin. rewrite <- Heq. by apply Hmem.
    + by apply IH.
Qed.

End FormProcess.

(** X25.  When the form passes validation and its row ids are distinct,
    [processUrls] keeps every row in place with its inputs; a row whose URL
    is blank is left exactly as it was; every other row ends either with a
    record for its URL (under its custom shortcode if it gave one) and no
    error, or with no record and the error "shortcode already in use" or
    "unexpected error".  None of the three validation errors can come back
    from the service. *)
Theorem processUrls_outcome url_parses envs (urls : list Form.Row) (s : System) :
  NoDup (map Form.row_id urls) →
  (Form.validateAllUrls url_parses urls).1 = true →
  let rows' := (Form.processUrls url_parses envs urls s).1 in
  length rows' = length urls ∧
  ∀ i u, urls !! i = Some u →
    ∃ u', rows' !! i = Some u' ∧
          Form.row_id u' = Form.row_id u ∧
          Form.row_originalUrl u' = Form.row_originalUrl u ∧
          Form.row_validityMinutes u' = Form.row_validityMinutes u ∧
          Form.row_customShortcode u' = Form.row_customShortcode u ∧
          if Form.blank (Form.row_originalUrl u) then u' = u
          else Form.settled u (Form.row_result u') (Form.row_error u').
Proof.
  intros Hnd Hvalid rows'. subst rows'.
  pose proof Hvalid as [_ Hall]%FormChecks.validateAllUrls_true.
  pose proof (FormProcess.process_loop_outcomes url_parses envs _ Hall 0 s) as Houts.
  unfold Form.processUrls.
  destruct (Form.validateAllUrls url_parses urls) as [ok urls']. simpl in Hvalid.
  subst ok. simpl.
  destruct (Form.process_loop url_parses envs 0 (Form.validUrls urls) s) as [results s'].
  simpl in *. unfold Form.merge_results. split; [by rewrite length_map|].
  intros i u Hu.
  change (map ?f urls) with (f <$> urls). rewrite list_lookup_fmap, Hu. simpl.
  eexists. split; [reflexivity|].
  assert (Hin : u ∈ urls) by (by eapply list_elem_of_lookup_2).
  destruct (Form.blank (Form.row_originalUrl u)) eqn:Hblank.
  - rewrite (FormProcess.find_absent _ _ _ _ Houts); [done|].
    intros Hid. apply list_elem_of_In, in_map_iff in Hid as (v & Hid & Hv).
    apply list_elem_of_In, FormChecks.elem_of_validUrls in Hv as [Hv Hvb].
    assert (v = u) by (by apply (FormProcess.same_id_same_row urls)).
    subst v. congruence.
  - destruct (FormProcess.find_paired _ _ _ Houts) with (u := u) as (o & -> & Hid & Hset).
    + by apply FormFacts.ids_filter.
    + by apply FormChecks.elem_of_validUrls.
    + simpl. done.
Qed.

Lemma processUrls_outcome_witness :
  let urls := [Form.mkRow (Form.Id 1) "https://example.com" (Integer 30) "abc" None None;
               Form.mkRow (Form.Id 2) " " (Integer 30) EmptyString None None] in
  let envs := λ _ : nat, browser_at 0 (λ _, 0%nat) in
  NoDup (map Form.row_id urls) ∧
  (Form.validateAllUrls accept_all urls).1 = true ∧
  let rows' := (Form.processUrls accept_all envs urls initial).1 in
  (Form.row_error <$> rows') = [None; None] ∧
  ((λ u, shortcode <$> Form.row_result u) <$> rows') = [Some "abc"; None] ∧
  length rows' = length urls ∧
  ∀ i u, urls !! i = Some u →
    ∃ u', rows' !! i = Some u' ∧
          Form.row_id u' = Form.row_id u ∧
          Form.row_originalUrl u' = Form.row_originalUrl u ∧
          Form.row_validityMinutes u' = Form.row_validityMinutes u ∧
          Form.row_customShortcode u' = Form.row_customShortcode u ∧
          if Form.blank (Form.row_originalUrl u) then u' = u
          else Form.settled u (Form.row_result u') (Form.row_error u').
Proof.
  intros urls envs.
  assert (Hnd : NoDup (map Form.row_id urls)).
  { simpl. apply NoDup_cons. split; [|apply NoDup_singleton].
    intros H%list_elem_of_singleton. discriminate H. }
  assert (Hvalid : (Form.validateAllUrls accept_all urls).1 = true) by reflexivity.
  split; [exact Hnd|]. split; [exact Hvalid|].
  intros rows'. split; [vm_compute; reflexivity|]. split; [vm_compute; reflexivity|].
  exact (processUrls_outcome accept_all envs urls initial Hnd Hvalid).
Defined.

(** * The pages that read the registry *)



Lemma totalClicks_from (urls : list URLRecord) (start : Z) :
  Forall counts_clicks urls →
  foldl (λ total url, total + clickCount url) start urls
  = start + Z.of_nat (length (concat (map clicks urls))).
Proof.
  intros Hall. revert start. induction Hall as [|url urls Hc _ IH]; intros start.
  - simpl. lia.
  - simpl. rewrite IH, length_app. unfold counts_clicks in Hc. lia.
Qed.

(** X27.  In every reachable state the "Total Clicks" figure of the
    statistics page is the number of click events held by the listed
    records. *)
Theorem totalClicks_counts_events url_parses (s : System) :
  reachable url_parses s →
  Stats.totalClicks (Stats.loadURLs s)
  = Z.of_nat (length (concat (map clicks (Stats.loadURLs s)))).
Proof.
  intros [Hok _]%reachable_inv. unfold Stats.totalClicks.
  rewrite totalClicks_from; [lia|].
  apply Forall_forall. intros r (code & Hu)%getAllURLs_elem.
  specialize (Hok code). rewrite Hu in Hok.
  destruct (clickData (service s) !! code); [|done]. by destruct Hok.
Qed.

Lemma totalClicks_counts_events_witness :
  reachable accept_all resolved_once ∧
  Stats.totalClicks (Stats.loadURLs resolved_once) = 1 ∧
  Stats.totalClicks (Stats.loadURLs resolved_once)
  = Z.of_nat (length (concat (map clicks (Stats.loadURLs resolved_once)))).
Proof.
  split; [exact reachable_resolved_once|]. split; [vm_compute; reflexivity|].
  exact (totalClicks_counts_events accept_all resolved_once reachable_resolved_once).
Defined.

Lemma imap_ignore_index {A B : Type} (f : A → B) (l : list A) :
  imap (λ _ x, f x) l = f <$> l.
Proof. apply (imap_const f). Qed.

Lemma counts_from (now_ms : Z) (urls : list URLRecord) (j : nat) :
  (length (filter (λ keep : bool, keep = true)
             (imap (λ i url, Stats.date_le now_ms (Stats.to_Date (expiresAt url)) ) urls))
   + length (filter (λ keep : bool, keep = true)
               (imap (λ i url, date_gt now_ms (Stats.to_Date (expiresAt url))) urls))
   + length (filter (λ url, Stats.to_Date (expiresAt url) = DateInvalid) urls)
   = length urls)%nat.
Proof.
  rewrite !imap_ignore_index.
  induction urls as [|url urls IH]; [done|].
  rewrite !fmap_cons, !filter_cons.
  destruct (expiresAt url) as [t| |t|]; simpl;
    repeat case_decide; try done;
    repeat match goal with
           | H : (_ <=? _) = true |- _ => apply Z.leb_le in H
           | H : (_ <? _) = true |- _ => apply Z.ltb_lt in H
           | H : (_ <=? _) ≠ true |- _ => apply not_true_is_false, Z.leb_gt in H
           | H : (_ <? _) ≠ true |- _ => apply not_true_is_false, Z.ltb_ge in H
           end; cbn [length] in *; lia.
Qed.

(** X28.  Read at one clock value, the "Active" and "Expired" counters of
    the statistics page count every listed record exactly once, except the
    records whose expiry is an invalid [Date], which are counted in
    neither. *)
Theorem active_plus_expired (now_ms : Z) (urls : list URLRecord) :
  (Stats.activeCount (λ _, now_ms) urls + Stats.expiredCount (λ _, now_ms) urls
   + length (filter (λ url, expiresAt url = DateInvalid) urls)
   = length urls)%nat.
Proof.
  pose proof (counts_from now_ms urls 0) as H.
  assert (Hf : filter (λ url, expiresAt url = DateInvalid) urls
               = filter (λ url, Stats.to_Date (expiresAt url) = DateInvalid) urls).
  { apply list_filter_iff. intros url. by destruct (expiresAt url). }
  unfold Stats.activeCount, Stats.expiredCount. rewrite Hf. exact H.
Qed.

(** X9.  In every reachable state [getURLStats] returns exactly the record
    stored under the shortcode (the click history it substitutes is the
    record's own) and nothing for a shortcode that is not stored; so the
    detailed statistics the page shows for a listed record are that record
    itself. *)
Theorem getURLStats_is_record url_parses (s : System) (code : string) :
  reachable url_parses s →
  getURLStats code s = urls (service s) !! code ∧
  ∀ url, url ∈ Stats.loadURLs s → Stats.getDetailedStats url s = url.
Proof.
  intros Hreach. pose proof (reachable_inv _ _ Hreach) as [Hok _].
  assert (Hstats : ∀ c, getURLStats c s = urls (service s) !! c).
  { intros c. unfold getURLStats.
    destruct (urls (service s) !! c) as [r|] eqn:Hu; [|done].
    rewrite (maps_ok_history _ _ _ _ Hok Hu). simpl. by destruct r. }
  split; [apply Hstats|].
  intros url (c & Hu)%getAllURLs_elem. unfold Stats.getDetailedStats.
  assert (Hc : shortcode url = c).
  { apply (records_reachable url_parses (λ code r, shortcode r = code)) with (s := s);
      [by intros| by intros | by intros | exact Hreach | exact Hu]. }
  by rewrite Hstats, Hc, Hu.
Qed.

Lemma getURLStats_is_record_witness :
  reachable accept_all resolved_once ∧
  (clickCount <$> getURLStats "AAAAAA" resolved_once) = Some 1 ∧
  getURLStats "AAAAAA" resolved_once = urls (service resolved_once) !! "AAAAAA" ∧
  ∀ url, url ∈ Stats.loadURLs resolved_once →
         Stats.getDetailedStats url resolved_once = url.
Proof.
  split; [exact reachable_resolved_once|]. split; [vm_compute; reflexivity|].
  exact (getURLStats_is_record accept_all resolved_once "AAAAAA" reachable_resolved_once).
Defined.

(** X29.  In every reachable state the redirect page either sends the
    browser to the original URL of the record stored under the shortcode, a
    URL that passed [validateURL], having recorded one click on that record;
    or it shows "Invalid short URL", "Short URL not found." or "Short URL
    has expired." and changes nothing.  It never ends in its "unexpected
    error" branch. *)
Theorem handleRedirect_outcome url_parses (b : Browser) (shortcode : option string)
    (s : System) :
  reachable url_parses s →
  match Redirect.handleRedirect b shortcode s with
  | (Redirect.Navigated url, s') =>
      ∃ code r,
        shortcode = Some code ∧
        urls (service s) !! code = Some r ∧
        url = originalUrl r ∧
        validateURL url_parses url = true ∧
        date_gt (now_lookup b) (expiresAt r) = false ∧
        urls (service s') !! code = Some (clicked r (click_of b))
  | (Redirect.ShowError msg, s') =>
      s' = s ∧
      msg ∈ [Redirect.err_invalid_short_url; err_not_found; err_expired]
  end.
Proof.
  intros Hreach. pose proof (reachable_inv _ _ Hreach) as [Hok _].
  unfold Redirect.handleRedirect.
  destruct shortcode as [[|c rest]|]; [split; [done | set_solver]| |split; [done | set_solver]].
  set (code := String c rest).
  destruct (urls (service s) !! code) as [r|] eqn:Hu;
    [|rewrite getOriginalURL_not_found by done; split; [done | set_solver]].
  destruct (date_gt (now_lookup b) (expiresAt r)) eqn:He;
    [rewrite (getOriginalURL_expired _ _ _ r) by done; split; [done | set_solver]|].
  rewrite (getOriginalURL_live _ _ _ r (clicks r));
    [|done|by eapply maps_ok_history|done].
  exists code, r. rewrite service_saveToStorage. simpl. rewrite lookup_insert_eq.
  repeat split; try done.
  apply (records_reachable url_parses (λ _ r, validateURL url_parses (originalUrl r) = true))
    with (s := s) (code := code); [by intros | by intros | by intros | exact Hreach | exact Hu].
Qed.

Lemma handleRedirect_outcome_witness :
  let b := browser_at 30000 (λ _, 0%nat) in
  reachable accept_all one_minute_link ∧
  (Redirect.handleRedirect b (Some "AAAAAA") one_minute_link).1
    = Redirect.Navigated "https://example.com" ∧
  match Redirect.handleRedirect b (Some "AAAAAA") one_minute_link with
  | (Redirect.Navigated url, s') =>
      ∃ code r,
        Some "AAAAAA" = Some code ∧
        urls (service one_minute_link) !! code = Some r ∧
        url = originalUrl r ∧
        validateURL accept_all url = true ∧
        date_gt (now_lookup b) (expiresAt r) = false ∧
        urls (service s') !! code = Some (clicked r (click_of b))
  | (Redirect.ShowError msg, s') =>
      s' = one_minute_link ∧
      msg ∈ [Redirect.err_invalid_short_url; err_not_found; err_expired]
  end.
Proof.
  intros b. split; [exact reachable_one_minute_link|]. split; [vm_compute; reflexivity|].
  exact (handleRedirect_outcome accept_all b (Some "AAAAAA") one_minute_link
           reachable_one_minute_link).
Defined.

(** X30.  [debugGetAllURLs] lists one entry per stored record, carrying the
    record's key, URLs and dates; an entry's [isExpired] flag is the very
    test [getOriginalURL] makes, so a lookup at the clock value the entry
    was computed with is refused as expired exactly when the flag is set. *)
Theorem debugGetAllURLs_entries (now_at : nat → Z) (s : System) (i : nat) (e : DebugEntry) :
  debugGetAllURLs now_at s !! i = Some e →
  length (debugGetAllURLs now_at s) = length (getAllURLs s) ∧
  ∃ r, urls (service s) !! debug_shortcode e = Some r ∧
       getAllURLs s !! i = Some r ∧
       debug_originalUrl e = originalUrl r ∧
       debug_shortUrl e = shortUrl r ∧
       debug_createdAt e = createdAt r ∧
       debug_expiresAt e = expiresAt r ∧
       ∀ b, now_lookup b = now_at i →
            (debug_isExpired e = true ↔
             getOriginalURL b (debug_shortcode e) s = (Return (Failure err_expired), s)).
Proof.
  unfold debugGetAllURLs, getAllURLs. rewrite length_imap, length_fmap.
  rewrite list_lookup_imap, list_lookup_fmap.
  destruct (map_to_list (urls (service s)) !! i) as [[code r]|] eqn:Hi; [|done].
  simpl. intros [= <-]. split; [done|]. simpl.
  assert (Hu : urls (service s) !! code = Some r).
  { apply elem_of_map_to_list. by eapply list_elem_of_lookup_2. }
  exists r. do 6 (split; [done|]). intros b Hb. split.
  - intros He. apply (getOriginalURL_expired _ _ _ r); [done|]. by rewrite Hb.
  - intros Hget. unfold getOriginalURL in Hget. rewrite Hu, Hb in Hget.
    destruct (date_gt (now_at i) (expiresAt r)); [done|].
    by destruct (recordClick b code s) as [[?|?] ?].
Qed.

Lemma debugGetAllURLs_entries_witness :
  let now_at := λ _ : nat, 3600000 in
  ∃ e, debugGetAllURLs now_at one_minute_link !! 0%nat = Some e ∧
       debug_isExpired e = true ∧
       length (debugGetAllURLs now_at one_minute_link) = length (getAllURLs one_minute_link) ∧
       ∃ r, urls (service one_minute_link) !! debug_shortcode e = Some r ∧
            getAllURLs one_minute_link !! 0%nat = Some r ∧
            debug_originalUrl e = originalUrl r ∧
            debug_shortUrl e = shortUrl r ∧
            debug_createdAt e = createdAt r ∧
            debug_expiresAt e = expiresAt r ∧
            ∀ b, now_lookup b = now_at 0%nat →
                 (debug_isExpired e = true ↔
                  getOriginalURL b (debug_shortcode e) one_minute_link
                  = (Return (Failure err_expired), one_minute_link)).
Proof.
  intros now_at. eexists. split; [vm_compute; reflexivity|]. split; [reflexivity|].
  apply (debugGetAllURLs_entries now_at one_minute_link 0).
  vm_compute. reflexivity.
Defined.
